(** * safeinput.c (version 1.1.0): a shallow embedding and its properties

    The development follows [src/safeinput.c] function by function.

    - The standard input is a finite list of bytes; [getchar_unlocked]
      pops one byte, and answers [EOF] for good once the list is empty.
    - The diagnostic stream is the list of the messages written so far.
    - A [char] array is a list of memory cells, each one either
      indeterminate or holding a character; a character is kept as its
      8-bit pattern (0..255), which is all the program ever looks at
      (comparisons with ASCII constants, [strtol], [strchr] and the
      cast [(unsigned char)]).
    - [size_t] counters are [nat]: they are bounded by the buffer sizes
      (at most 128) and never wrap.
    - [int], [long], ... values are [Z]; the narrowing casts of the
      program, [(int)value] and [(unsigned int)value], have their
      wrap-around written out.
    - The C library ([strtol] and its siblings, [strchr], [malloc],
      [memcpy]) is described after the C standard; [strtof], [strtod],
      [isfinite] and [NAN] stay abstract. *)

From Stdlib Require Import ZArith List String Bool Lia.
From Stdlib.Strings Require Import Byte.
From stdpp Require Import base list.
Import ListNotations.

#[local] Open Scope Z_scope.

Module SafeInput.

(** ** Characters and memory *)

Definition EOF : Z := -1.

(** ['\n'], ['\0'] and the other character constants of the source. *)
Definition NL : Z := 10.
Definition NUL : Z := 0.
Definition MINUS : Z := 45.
Definition PLUS : Z := 43.

Definition newline : byte := x0a.

(** The value [getchar] gives for a byte: an [unsigned char] as [int]. *)
Definition byte_val (b : byte) : Z := Z.of_N (Byte.to_N b).

(** [(char)c] and back through [(unsigned char)]: the 8-bit pattern. *)
Definition to_char (c : Z) : Z := c mod 256.

Inductive memval : Type :=
  | Undef
  | Char (c : Z).

(** A freshly declared [char buffer[n]], or [malloc(n)]. *)
Definition fresh (n : nat) : list memval := replicate n Undef.

(** The characters a line of input leaves in memory. *)
Definition chars (l : list byte) : list memval := (fun b => Char (byte_val b)) <$> l.

(** The C string that starts at the beginning of an array: the characters
    before the first ['\0'].  (An array without terminator would be read
    out of bounds by C; the scan stops there.) *)
Fixpoint c_str (mem : list memval) : list Z :=
  match mem with
  | Char c :: mem' => if c =? NUL then [] else c :: c_str mem'
  | _ => []
  end.

(** ** The environment: standard input, standard error, the allocator *)

Record World : Type := mkWorld {
  stdin : list byte;
  stderr : list string;
  heap_free : nat
}.

Definition getchar_unlocked (w : World) : Z * World :=
  match stdin w with
  | [] => (EOF, w)
  | b :: s => (byte_val b, mkWorld s (stderr w) (heap_free w))
  end.

Definition fputs_stderr (msg : string) (w : World) : World :=
  mkWorld (stdin w) (stderr w ++ [msg]) (heap_free w).

(** [malloc n]: a block of [n] indeterminate bytes when the allocator still
    has [n] bytes, [NULL] ([None]) otherwise. *)
Definition malloc (n : nat) (w : World) : option (list memval) * World :=
  if (n <=? heap_free w)%nat
  then (Some (fresh n), mkWorld (stdin w) (stderr w) (heap_free w - n))
  else (None, w).

(** [exit] ends the process: a function either returns or exits. *)
Inductive outcome (R : Type) : Type :=
  | Returns (r : R)
  | Exits (status : Z).
Arguments Returns {R} r.
Arguments Exits {R} status.

Definition EXIT_FAILURE : Z := 1.

(** [memcpy(dst, src, n)] on the beginnings of two arrays. *)
Definition memcpy (dst src : list memval) (n : nat) : list memval :=
  take n src ++ drop n dst.

(** ** safeinput.h *)

Definition INPUT_BUFFER_SIZE : nat := 128.
Definition CHAR_INPUT_BUFFER_SIZE : nat := 4.

(** A [char *] result: [NULL], or the block it points to. *)
Inductive pointer : Type :=
  | NULL
  | Ptr (block : list memval).

Record si_string : Type := mk_si_string {
  data : pointer;
  len : nat
}.

(** ** safeinput.c: the line reader *)

Definition si_printError (msg : string) (w : World) : World :=
  fputs_stderr msg w.

Definition MSG_OVERRUN : string := "Input exceeding buffer size. Try again.
".

(** [while ((c = getchar_unlocked()) != '\n' && c != EOF) ;] on the bytes
    still to come: one byte is taken per iteration, the loop stops after
    the newline it has taken, or at the end of the stream. *)
Fixpoint drain (s : list byte) : list byte :=
  match s with
  | [] => []
  | b :: s' => if byte_val b =? NL then s' else drain s'
  end.

Definition si_drainStdin (w : World) : World :=
  mkWorld (drain (stdin w)) (stderr w) (heap_free w).

(** The [for] loop of [si_readByte]; [n] is [maxLen - i], the number of
    iterations the guard [i < maxLen] still allows.  The result is the
    final [i], the last [c], the buffer and the environment. *)
Fixpoint si_readByte_for (n i : nat) (c : Z) (buf : list memval) (w : World)
  : nat * Z * list memval * World :=
  match n with
  | O => (i, c, buf, w)
  | S n' =>
      let '(c', w') := getchar_unlocked w in
      if (c' =? NL) || (c' =? EOF) then (i, c', buf, w')
      else si_readByte_for n' (S i) c' (<[i := Char (to_char c')]> buf) w'
  end.

(** [si_readByte buf maxLen w] gives the returned [int], the buffer, what
    [*outLen] received ([None]: not written) and the environment.  [buf]
    and [outLen] are never [NULL] at the call sites of this file, which
    leaves [maxLen < 1] of the argument check.  [c] is indeterminate before
    the loop and assigned by its first iteration. *)
Definition si_readByte (buf : list memval) (maxLen : nat) (w : World)
  : Z * list memval * option nat * World :=
  if (maxLen <? 1)%nat then (1, buf, None, w)
  else
    let '(i, c, buf', w1) := si_readByte_for maxLen 0 0 buf w in
    if (i =? maxLen)%nat && negb (c =? NL) && negb (c =? EOF) then
      (1, buf', Some i, si_printError MSG_OVERRUN (si_drainStdin w1))
    else if (c =? EOF) && (i =? 0)%nat then (EOF, buf', Some i, w1)
    else (0, buf', Some i, w1).


(** ** The C library's integer conversions

    [strtol] and its siblings belong to the C library, not to this
    repository; they are written here after ISO C99 7.20.1.4 for base 10
    and the "C" locale: white space is skipped, then an optional sign and a
    non-empty run of digits form the subject sequence.  The result is the
    value, the offset [endptr - nptr], and [errno] after the call (the
    callers clear [errno] just before). *)

Definition ERANGE : Z := 34.

Definition isspace (c : Z) : bool := (c =? 32) || ((9 <=? c) && (c <=? 13)).
Definition isdigit (c : Z) : bool := (48 <=? c) && (c <=? 57).

Fixpoint skip_spaces (s : list Z) (n : nat) : list Z * nat :=
  match s with
  | c :: s' => if isspace c then skip_spaces s' (S n) else (s, n)
  | [] => (s, n)
  end.

Definition scan_sign (s : list Z) : bool * list Z * nat :=
  match s with
  | c :: s' =>
      if c =? MINUS then (true, s', 1%nat)
      else if c =? PLUS then (false, s', 1%nat)
      else (false, s, 0%nat)
  | [] => (false, s, 0%nat)
  end.

Fixpoint scan_digits (s : list Z) (acc : Z) (n : nat) : Z * nat :=
  match s with
  | c :: s' =>
      if isdigit c then scan_digits s' (10 * acc + (c - 48)) (S n) else (acc, n)
  | [] => (acc, n)
  end.

(** Sign, magnitude and length of the subject sequence with the white space
    before it; [None] when there is no digit (no conversion is performed). *)
Definition subject (s : list Z) : option (bool * Z * nat) :=
  let '(s1, k) := skip_spaces s 0 in
  let '(neg, s2, j) := scan_sign s1 in
  let '(mag, d) := scan_digits s2 0 0 in
  if (d =? 0)%nat then None else Some (neg, mag, (k + j + d)%nat).

Definition strto_signed (bits : Z) (s : list Z) : Z * nat * Z :=
  match subject s with
  | None => (0, 0%nat, 0)
  | Some (neg, mag, n) =>
      let v := if neg then - mag else mag in
      if v >? 2 ^ (bits - 1) - 1 then (2 ^ (bits - 1) - 1, n, ERANGE)
      else if v <? - 2 ^ (bits - 1) then (- 2 ^ (bits - 1), n, ERANGE)
      else (v, n, 0)
  end.

(** A minus sign negates the converted value in the unsigned type. *)
Definition strto_unsigned (bits : Z) (s : list Z) : Z * nat * Z :=
  match subject s with
  | None => (0, 0%nat, 0)
  | Some (neg, mag, n) =>
      if mag >? 2 ^ bits - 1 then (2 ^ bits - 1, n, ERANGE)
      else ((if neg then (- mag) mod 2 ^ bits else mag), n, 0)
  end.

(** [*endptr] for an offset into a C string: past its last character
    stands the terminator. *)
Definition deref (s : list Z) (k : nat) : Z := nth k s NUL.

(** [strchr(s, c) != NULL]; the terminator counts as part of the string. *)
Definition strchr (s : list Z) (c : Z) : bool :=
  (c =? NUL) || existsb (Z.eqb c) s.

(** The width of [long]: 32 bits under ILP32 (and LLP64), 64 under LP64.
    [int] has 32 bits and [long long] 64 in all of them. *)
Inductive data_model : Type := ILP32 | LP64.

Definition long_bits (dm : data_model) : Z :=
  match dm with ILP32 => 32 | LP64 => 64 end.

Definition INT_MIN : Z := - 2 ^ 31.
Definition INT_MAX : Z := 2 ^ 31 - 1.
Definition UINT_MAX : Z := 2 ^ 32 - 1.
Definition LONG_MIN (dm : data_model) : Z := - 2 ^ (long_bits dm - 1).
Definition ULONG_MAX (dm : data_model) : Z := 2 ^ long_bits dm - 1.
Definition LLONG_MIN : Z := - 2 ^ 63.
Definition ULLONG_MAX : Z := 2 ^ 64 - 1.

Definition strtol (dm : data_model) := strto_signed (long_bits dm).
Definition strtoul (dm : data_model) := strto_unsigned (long_bits dm).
Definition strtoll := strto_signed 64.
Definition strtoull := strto_unsigned 64.

(** [(int)value]: reduction modulo 2^32 into the range of [int]. *)
Definition to_int (v : Z) : Z := (v + 2 ^ 31) mod 2 ^ 32 - 2 ^ 31.

(** [(unsigned int)value]. *)
Definition to_uint (v : Z) : Z := v mod 2 ^ 32.

(** ** safeinput.c: the retry loops

    One iteration of a [while ( 1 )] loop either returns a value or goes
    round again; the loop runs on a state (here the local buffer and the
    environment).  A body answers [None] where C gives no meaning to the
    step (an indeterminate [len] or character would be read); [while_1]
    answers [None] also when [fuel] iterations did not reach a [return]. *)

Inductive ctl (R : Type) : Type :=
  | Return (r : R)
  | Continue.
Arguments Return {R} r.
Arguments Continue {R}.

Fixpoint while_1 {St R : Type} (body : St -> option (ctl R * St))
    (fuel : nat) (s : St) : option (R * St) :=
  match fuel with
  | O => None
  | S fuel' =>
      match body s with
      | None => None
      | Some (Return r, s') => Some (r, s')
      | Some (Continue, s') => while_1 body fuel' s'
      end
  end.

Definition frame : Type := (list memval * World)%type.

(** A function made of a local buffer of [size] bytes and a retry loop.
    Every iteration that goes round again has taken a byte of the input, so
    one iteration more than the input has bytes is all the loop can use:
    the result is never [None] (lemma [retry_loop_total] below). *)
Definition retry_loop {R : Type} (size : nat)
    (body : frame -> option (ctl R * frame)) (w : World) : option (R * World) :=
  match while_1 body (S (length (stdin w))) (fresh size, w) with
  | Some (r, (_, w')) => Some (r, w')
  | None => None
  end.

(** [buffer[i]] as an rvalue: the character of an initialised cell. *)
Definition load (buffer : list memval) (i : nat) : option Z :=
  match buffer !! i with
  | Some (Char c) => Some c
  | _ => None
  end.

Definition MSG_INVALID : string := "Invalid input. Try again.
".
Definition MSG_NEGATIVE : string := "Value can not be negative.
".
Definition MSG_SINGLE_CHAR : string := "Invalid input. Please enter a single character.
".
Definition MSG_NULL_ALLOWED : string := "ERROR: NULL passed to 'allowed'.
".
Definition MSG_NO_ALLOWED : string := "No allowed characters specified. Exiting.
".
Definition MSG_ALLOC : string := "Memory allocation failed.
".
Definition MSG_EOF_FALSE : string := "EOF detected. Returning false by default.
".
Definition MSG_Y_OR_N : string := "Invalid input. Enter 'y' or 'n'.
".

(** *** si_getInt *)

Definition si_getInt_body (dm : data_model) (fr : frame) : option (ctl Z * frame) :=
  let '(buffer, w) := fr in
  let '(r, buffer, len, w) := si_readByte buffer (INPUT_BUFFER_SIZE - 1) w in
  if negb (r =? 0) then Some (Return INT_MIN, (buffer, w))
  else
    match len with
    | None => None
    | Some len =>
        let buffer := <[len := Char NUL]> buffer in
        let '(value, endptr, errno) := strtol dm (c_str buffer) in
        if (endptr =? 0)%nat || negb (deref (c_str buffer) endptr =? NUL)
           || (errno =? ERANGE) || negb (value =? to_int value)
        then Some (Continue, (buffer, si_printError MSG_INVALID w))
        else Some (Return (to_int value), (buffer, w))
    end.

Definition si_getInt (dm : data_model) : World -> option (Z * World) :=
  retry_loop INPUT_BUFFER_SIZE (si_getInt_body dm).

(** *** si_getUInt *)

Definition si_getUInt_body (dm : data_model) (fr : frame) : option (ctl Z * frame) :=
  let '(buffer, w) := fr in
  let '(r, buffer, len, w) := si_readByte buffer (INPUT_BUFFER_SIZE - 1) w in
  if negb (r =? 0) then Some (Return UINT_MAX, (buffer, w))
  else
    match len with
    | None => None
    | Some len =>
        let buffer := <[len := Char NUL]> buffer in
        let '(value, endptr, errno) := strtoul dm (c_str buffer) in
        match load buffer 0 with
        | None => None
        | Some c0 =>
            if c0 =? MINUS
            then Some (Continue, (buffer, si_printError MSG_NEGATIVE w))
            else if (endptr =? 0)%nat || negb (deref (c_str buffer) endptr =? NUL)
                    || (errno =? ERANGE) || (value >? UINT_MAX)
            then Some (Continue, (buffer, si_printError MSG_INVALID w))
            else Some (Return (to_uint value), (buffer, w))
        end
    end.

Definition si_getUInt (dm : data_model) : World -> option (Z * World) :=
  retry_loop INPUT_BUFFER_SIZE (si_getUInt_body dm).

(** *** si_getFloat, si_getDouble

    [strtof], [strtod], [isfinite] and [NAN] are the C library's; the
    floating type and these operations are left abstract.  A conversion
    gives the value, the offset [endptr - nptr] and [errno]. *)

Section FloatingPoint.

Variable float : Type.
Variable NAN : float.
Variable strtof : list Z -> float * nat * Z.
Variable isfinite : float -> bool.

Definition si_getFloat_body (fr : frame) : option (ctl float * frame) :=
  let '(buffer, w) := fr in
  let '(r, buffer, len, w) := si_readByte buffer (INPUT_BUFFER_SIZE - 1) w in
  if negb (r =? 0) then Some (Return NAN, (buffer, w))
  else
    match len with
    | None => None
    | Some len =>
        let buffer := <[len := Char NUL]> buffer in
        let '(value, endptr, errno) := strtof (c_str buffer) in
        if (endptr =? 0)%nat || negb (deref (c_str buffer) endptr =? NUL)
           || (errno =? ERANGE) || negb (isfinite value)
        then Some (Continue, (buffer, si_printError MSG_INVALID w))
        else Some (Return value, (buffer, w))
    end.

Definition si_getFloat : World -> option (float * World) :=
  retry_loop INPUT_BUFFER_SIZE si_getFloat_body.

End FloatingPoint.

(** [si_getDouble] is [si_getFloat] word for word, with [double] and
    [strtod] in the place of [float] and [strtof]. *)
Definition si_getDouble_body := si_getFloat_body.
Definition si_getDouble := si_getFloat.

(** *** si_getLong, si_getULong, si_getLongLong, si_getULongLong *)

Definition si_getLong_body (dm : data_model) (fr : frame) : option (ctl Z * frame) :=
  let '(buffer, w) := fr in
  let '(r, buffer, len, w) := si_readByte buffer (INPUT_BUFFER_SIZE - 1) w in
  if negb (r =? 0) then Some (Return (LONG_MIN dm), (buffer, w))
  else
    match len with
    | None => None
    | Some len =>
        let buffer := <[len := Char NUL]> buffer in
        let '(value, endptr, errno) := strtol dm (c_str buffer) in
        if (endptr =? 0)%nat || negb (deref (c_str buffer) endptr =? NUL)
           || (errno =? ERANGE)
        then Some (Continue, (buffer, si_printError MSG_INVALID w))
        else Some (Return value, (buffer, w))
    end.

Definition si_getLong (dm : data_model) : World -> option (Z * World) :=
  retry_loop INPUT_BUFFER_SIZE (si_getLong_body dm).

Definition si_getULong_body (dm : data_model) (fr : frame) : option (ctl Z * frame) :=
  let '(buffer, w) := fr in
  let '(r, buffer, len, w) := si_readByte buffer (INPUT_BUFFER_SIZE - 1) w in
  if negb (r =? 0) then Some (Return (ULONG_MAX dm), (buffer, w))
  else
    match len with
    | None => None
    | Some len =>
        let buffer := <[len := Char NUL]> buffer in
        let '(value, endptr, errno) := strtoul dm (c_str buffer) in
        if (endptr =? 0)%nat || negb (deref (c_str buffer) endptr =? NUL)
           || (errno =? ERANGE)
        then Some (Continue, (buffer, si_printError MSG_INVALID w))
        else Some (Return value, (buffer, w))
    end.

Definition si_getULong (dm : data_model) : World -> option (Z * World) :=
  retry_loop INPUT_BUFFER_SIZE (si_getULong_body dm).

Definition si_getLongLong_body (fr : frame) : option (ctl Z * frame) :=
  let '(buffer, w) := fr in
  let '(r, buffer, len, w) := si_readByte buffer (INPUT_BUFFER_SIZE - 1) w in
  if negb (r =? 0) then Some (Return LLONG_MIN, (buffer, w))
  else
    match len with
    | None => None
    | Some len =>
        let buffer := <[len := Char NUL]> buffer in
        let '(value, endptr, errno) := strtoll (c_str buffer) in
        if (endptr =? 0)%nat || negb (deref (c_str buffer) endptr =? NUL)
           || (errno =? ERANGE)
        then Some (Continue, (buffer, si_printError MSG_INVALID w))
        else Some (Return value, (buffer, w))
    end.

Definition si_getLongLong : World -> option (Z * World) :=
  retry_loop INPUT_BUFFER_SIZE si_getLongLong_body.

Definition si_getULongLong_body (fr : frame) : option (ctl Z * frame) :=
  let '(buffer, w) := fr in
  let '(r, buffer, len, w) := si_readByte buffer (INPUT_BUFFER_SIZE - 1) w in
  if negb (r =? 0) then Some (Return ULLONG_MAX, (buffer, w))
  else
    match len with
    | None => None
    | Some len =>
        let buffer := <[len := Char NUL]> buffer in
        let '(value, endptr, errno) := strtoull (c_str buffer) in
        if (endptr =? 0)%nat || negb (deref (c_str buffer) endptr =? NUL)
           || (errno =? ERANGE)
        then Some (Continue, (buffer, si_printError MSG_INVALID w))
        else Some (Return value, (buffer, w))
    end.

Definition si_getULongLong : World -> option (Z * World) :=
  retry_loop INPUT_BUFFER_SIZE si_getULongLong_body.

(** *** si_getChar *)

Definition si_getChar_body (fr : frame) : option (ctl Z * frame) :=
  let '(buffer, w) := fr in
  let '(result, buffer, len, w) := si_readByte buffer (CHAR_INPUT_BUFFER_SIZE - 1) w in
  match len with
  | None => None
  | Some len =>
      let buffer := <[len := Char NUL]> buffer in
      if result =? EOF then Some (Return EOF, (buffer, w))
      else if result =? 1 then Some (Continue, (buffer, w))
      else if (len =? 0)%nat then Some (Return NL, (buffer, w))
      else if (len =? 1)%nat then
        match load buffer 0 with
        | None => None
        | Some c => Some (Return (to_char c), (buffer, w))
        end
      else Some (Continue, (buffer, si_printError MSG_SINGLE_CHAR w))
  end.

Definition si_getChar : World -> option (Z * World) :=
  retry_loop CHAR_INPUT_BUFFER_SIZE si_getChar_body.

(** *** si_getCharFiltered

    [allowed] is [None] for a null pointer, otherwise the characters of the
    string it points to (terminator left out). *)

Fixpoint string_of_chars (s : list Z) : string :=
  match s with
  | [] => EmptyString
  | c :: s' => String (Ascii.ascii_of_N (Z.to_N c)) (string_of_chars s')
  end.

(** [fprintf( stderr, "Invalid input. Allowed: %s\n", allowed )] *)
Definition MSG_ALLOWED (allowed : list Z) : string :=
  ("Invalid input. Allowed: " ++ string_of_chars allowed ++ "
")%string.

Definition si_getCharFiltered_body (allowed : list Z) (fr : frame)
  : option (ctl Z * frame) :=
  let '(buffer, w) := fr in
  let '(result, buffer, len, w) := si_readByte buffer (CHAR_INPUT_BUFFER_SIZE - 1) w in
  match len with
  | None => None
  | Some len =>
      let buffer := <[len := Char NUL]> buffer in
      if result =? EOF then Some (Return EOF, (buffer, w))
      else if result =? 1 then Some (Continue, (buffer, w))
      else if negb (len =? 1)%nat
      then Some (Continue, (buffer, si_printError MSG_SINGLE_CHAR w))
      else
        match load buffer 0 with
        | None => None
        | Some c =>
            if strchr allowed c then Some (Return (to_char c), (buffer, w))
            else Some (Continue, (buffer, fputs_stderr (MSG_ALLOWED allowed) w))
        end
  end.

Definition si_getCharFiltered (allowed : option (list Z)) (w : World)
  : option (outcome Z * World) :=
  match allowed with
  | None => Some (Exits EXIT_FAILURE, si_printError MSG_NULL_ALLOWED w)
  | Some [] => Some (Returns 1, si_printError MSG_NO_ALLOWED w)
  | Some allowed =>
      match retry_loop CHAR_INPUT_BUFFER_SIZE (si_getCharFiltered_body allowed) w with
      | Some (c, w') => Some (Returns c, w')
      | None => None
      end
  end.

(** *** si_getCString, si_getString: one read, no loop *)

Definition si_getCString (w : World) : option (pointer * World) :=
  let buffer := fresh INPUT_BUFFER_SIZE in
  let '(r, buffer, len, w) := si_readByte buffer (INPUT_BUFFER_SIZE - 1) w in
  if negb (r =? 0) then Some (NULL, w)
  else
    match len with
    | None => None
    | Some len =>
        let buffer := <[len := Char NUL]> buffer in
        match malloc (len + 1) w with
        | (None, w) => Some (NULL, si_printError MSG_ALLOC w)
        | (Some str, w) => Some (Ptr (memcpy str buffer (len + 1)), w)
        end
    end.

Definition si_getString (w : World) : option (si_string * World) :=
  let buffer := fresh INPUT_BUFFER_SIZE in
  let '(r, buffer, len, w) := si_readByte buffer INPUT_BUFFER_SIZE w in
  if negb (r =? 0) then Some (mk_si_string NULL 0, w)
  else
    match len with
    | None => None
    | Some len =>
        match malloc (if (len =? 0)%nat then 1 else len) w with
        | (None, w) => Some (mk_si_string NULL 0, si_printError MSG_ALLOC w)
        | (Some str, w) => Some (mk_si_string (Ptr (memcpy str buffer len)) len, w)
        end
    end.

(** *** si_getBool

    ['Y'] is 89, ['y'] 121, ['N'] 78 and ['n'] 110.  The loop has no buffer
    of its own; each call of [si_getChar] has a fresh one. *)

Definition si_getBool_body (w : World) : option (ctl bool * World) :=
  match si_getChar w with
  | None => None
  | Some (c, w) =>
      if c =? EOF then Some (Return false, si_printError MSG_EOF_FALSE w)
      else if (c =? 89) || (c =? 121) then Some (Return true, w)
      else if (c =? 78) || (c =? 110) then Some (Return false, w)
      else Some (Continue, si_printError MSG_Y_OR_N w)
  end.

Definition si_getBool (w : World) : option (bool * World) :=
  while_1 si_getBool_body (S (length (stdin w))) w.

(** ** Vocabulary of the statements *)

(** A line: bytes with no newline among them. *)
Definition no_newline (l : list byte) : bool :=
  forallb (fun b => negb (byte_val b =? NL)) l.

(** The string a stored line and its terminator make. *)
Definition line_str (stored : list byte) : list Z := c_str (chars stored ++ [Char NUL]).

Definition first_char (stored : list byte) : Z :=
  match stored with
  | [] => NUL
  | b :: _ => byte_val b
  end.

(** A loop body is [uniform] when, from two states that hold the same
    environment, it takes the same decision and leaves the same environment
    (the states may differ in the bytes of their buffers), it never gets
    stuck, and every iteration that goes round again has consumed input. *)
Definition uniform {St R : Type} (world_of : St -> World) (inv : St -> Prop)
    (body : St -> option (ctl R * St)) : Prop :=
  forall s1 s2 : St,
    inv s1 -> inv s2 -> world_of s1 = world_of s2 ->
    exists (k : ctl R) (s1' s2' : St),
      body s1 = Some (k, s1') /\ body s2 = Some (k, s2')
      /\ inv s1' /\ inv s2' /\ world_of s1' = world_of s2'
      /\ (k = Continue ->
          (length (stdin (world_of s1')) < length (stdin (world_of s1)))%nat).

(** What the caller sees of a loop: the value and the environment. *)
Definition run {St R : Type} (world_of : St -> World)
    (body : St -> option (ctl R * St)) (fuel : nat) (s : St) : option (R * World) :=
  match while_1 body fuel s with
  | Some (r, s') => Some (r, world_of s')
  | None => None
  end.

(** A line of text: no byte of it is the terminator of C strings. *)
Definition no_NUL (l : list byte) : bool :=
  forallb (fun b => negb (byte_val b =? NUL)) l.

(** What an iteration decides and the environment it leaves, the buffer
    left out. *)
Definition decision {R : Type} (o : option (ctl R * frame)) : option (ctl R * World) :=
  match o with
  | Some (k, (_, w)) => Some (k, w)
  | None => None
  end.

(** The bytes of a string literal, for the examples of the specification. *)
Definition bytes_of (s : string) : list byte := list_byte_of_string s.

(** An accessor whose reads have capacity [cap] retries on overrun: a line
    of [cap] bytes or more is skipped with the diagnostic of the line
    reader, and the call goes on as a call on the input after that line. *)
Definition retries_on_overrun {A : Type} (get : World -> option (A * World))
    (cap : nat) : Prop :=
  forall (line rest : list byte) (err : list string) (h : nat),
    no_newline line = true ->
    (cap <= length line)%nat ->
    get (mkWorld (line ++ newline :: rest) err h)
    = get (mkWorld rest (err ++ [MSG_OVERRUN]) h).

(** An accessor that hands an overrun to its caller: on such a line it
    returns [sentinel] at once, the line skipped and the diagnostic written. *)
Definition returns_on_overrun {A : Type} (get : World -> option (A * World))
    (cap : nat) (sentinel : A) : Prop :=
  forall (line rest : list byte) (err : list string) (h : nat),
    no_newline line = true ->
    (cap <= length line)%nat ->
    get (mkWorld (line ++ newline :: rest) err h)
    = Some (sentinel, mkWorld rest (err ++ [MSG_OVERRUN]) h).

(** The invariant of a frame: the buffer keeps its declared size. *)
Definition sized (size : nat) (fr : frame) : Prop := length (fst fr) = size.

(** Strict conversion of the whole line, as the specification words it for
    [si_getInt]: a line of which [strtol] leaves any suffix unconsumed is
    rejected with the diagnostic, and the function reads on.  The lines are
    those the read hands over whole (fewer than 127 bytes). *)
Definition rejects_unconsumed_suffix (dm : data_model) : Prop :=
  forall (line rest : list byte) (err : list string) (h : nat),
    no_newline line = true ->
    (length line < 127)%nat ->
    (snd (fst (strtol dm (byte_val <$> line))) < length line)%nat ->
    si_getInt dm (mkWorld (line ++ newline :: rest) err h)
    = si_getInt dm (mkWorld rest (err ++ [MSG_INVALID]) h).

(** ** Vocabulary of the further properties *)

(** The bytes of the input before its first newline. *)
Fixpoint first_line (s : list byte) : list byte :=
  match s with
  | [] => []
  | b :: s' => if byte_val b =? NL then [] else b :: first_line s'
  end.

(** The input with its first [k] lines taken off. *)
Definition after_lines (k : nat) (s : list byte) : list byte := Nat.iter k drain s.

(** A read described by lines: what [si_readByte] is meant to do with a
    capacity of [c] bytes, told from the first line of the input. *)
Definition line_reader (c : nat) (buf : list memval) (w : World)
  : Z * list memval * option nat * World :=
  let L := first_line (stdin w) in
  if (c <=? length L)%nat then
    (1, chars (take c L) ++ drop c buf, Some c,
     mkWorld (drain (stdin w)) (stderr w ++ [MSG_OVERRUN]) (heap_free w))
  else
    match stdin w with
    | [] => (EOF, buf, Some 0%nat, w)
    | _ => (0, chars L ++ drop (length L) buf, Some (length L),
            mkWorld (drain (stdin w)) (stderr w) (heap_free w))
    end.

(** From [w] to [w']: whole lines of the input were taken, at least one
    (at the end of the stream, the empty rest counts as a line), messages
    were added to the diagnostics, and the allocator was not used. *)
Definition took_lines (w w' : World) : Prop :=
  exists (k : nat) (msgs : list string),
    (1 <= k)%nat
    /\ stdin w' = after_lines k (stdin w)
    /\ stderr w' = stderr w ++ msgs
    /\ heap_free w' = heap_free w.

(** What an accessor's result always satisfies: on every input the
    accessor returns, and its value and the environment it leaves are
    related to the environment it found by [Q]. *)
Definition ensures {A : Type} (get : World -> option (A * World))
    (Q : World -> A -> World -> Prop) : Prop :=
  forall w : World, exists (r : A) (w' : World), get w = Some (r, w') /\ Q w r w'.

(** The same of the results there are, without the claim that there is one. *)
Definition results_satisfy {A : Type} (get : World -> option (A * World))
    (Q : World -> A -> World -> Prop) : Prop :=
  forall (w w' : World) (r : A), get w = Some (r, w') -> Q w r w'.

(** An accessor that returns on every input and only ever takes whole
    lines. *)
Definition consumes_lines {A : Type} (get : World -> option (A * World)) : Prop :=
  ensures get (fun w _ w' => took_lines w w').

(** An accessor that gives up on a long line: when the first line of the
    input has [cap] bytes or more, ended by a newline or by the end of the
    stream, it returns [sentinel] at once, the line skipped and the
    diagnostic of the line reader written. *)
Definition gives_up_on_long_line {A : Type} (get : World -> option (A * World))
    (cap : nat) (sentinel : A) : Prop :=
  forall w : World,
    (cap <= length (first_line (stdin w)))%nat ->
    get w = Some (sentinel,
                  mkWorld (drain (stdin w)) (stderr w ++ [MSG_OVERRUN]) (heap_free w)).

(** The answer [si_getBool] reads in a line, if any. *)
Definition bool_answer (line : list byte) : option bool :=
  match line with
  | [b] =>
      if (byte_val b =? 89) || (byte_val b =? 121) then Some true
      else if (byte_val b =? 78) || (byte_val b =? 110) then Some false
      else None
  | _ => None
  end.

(** The diagnostic a line without answer gets. *)
Definition bool_diagnostic (line : list byte) : string :=
  if (length line <=? 1)%nat then MSG_Y_OR_N
  else if (length line =? 2)%nat then MSG_SINGLE_CHAR
  else MSG_OVERRUN.

Definition unanswered (line : list byte) : bool :=
  no_newline line && match bool_answer line with Some _ => false | None => true end.

(** Lines put end to end, each with its newline. *)
Definition lines_bytes (ls : list (list byte)) : list byte :=
  concat (map (fun l => l ++ [newline]) ls).

Definition LONG_MAX (dm : data_model) : Z := 2 ^ (long_bits dm - 1) - 1.
Definition LLONG_MAX : Z := 2 ^ 63 - 1.

(** Numerals: white space, a sign, decimal digits. *)
Definition all_spaces (l : list byte) : bool :=
  forallb (fun b => isspace (byte_val b)) l.

Definition all_digits (l : list byte) : bool :=
  forallb (fun b => isdigit (byte_val b)) l.

Definition decimal_value (l : list byte) : Z :=
  fold_left (fun acc b => 10 * acc + (byte_val b - 48)) l 0.

Inductive sign : Type := NoSign | PlusSign | MinusSign.

Definition sign_bytes (sg : sign) : list byte :=
  match sg with
  | NoSign => []
  | PlusSign => ["+"%byte]
  | MinusSign => ["-"%byte]
  end.

Definition signed_value (sg : sign) (v : Z) : Z :=
  match sg with
  | MinusSign => - v
  | _ => v
  end.

Definition numeral (ws : list byte) (sg : sign) (ds : list byte) : list byte :=
  ws ++ sign_bytes sg ++ ds.

(** * Properties *)

(** ** Bytes and memory cells *)

Lemma byte_val_range (b : byte) : 0 <= byte_val b < 256.
Proof. unfold byte_val. pose proof (Byte.to_N_bounded b). lia. Qed.

Lemma byte_val_not_EOF (b : byte) : (byte_val b =? EOF) = false.
Proof. pose proof (byte_val_range b). unfold EOF. lia. Qed.

Lemma to_char_byte_val (b : byte) : to_char (byte_val b) = byte_val b.
Proof. unfold to_char. apply Z.mod_small, byte_val_range. Qed.

Lemma length_chars (l : list byte) : length (chars l) = length l.
Proof. unfold chars. apply length_fmap. Qed.

Lemma chars_app (l k : list byte) : chars (l ++ k) = chars l ++ chars k.
Proof. unfold chars. apply fmap_app. Qed.

Lemma no_newline_cons (b : byte) (l : list byte) :
  no_newline (b :: l) = true -> (byte_val b =? NL) = false /\ no_newline l = true.
Proof.
  unfold no_newline. simpl. intros H. apply andb_true_iff in H as [Hb Hl].
  split; [now apply negb_true_iff | exact Hl].
Qed.

Lemma no_newline_take (n : nat) (l : list byte) :
  no_newline l = true -> no_newline (take n l) = true.
Proof.
  revert n. induction l as [|b l IH]; intros [|n] H; try reflexivity.
  apply no_newline_cons in H as [Hb Hl]. simpl.
  unfold no_newline in *. simpl. rewrite Hb. simpl. now apply IH.
Qed.

(** ** si_drainStdin *)

Lemma drain_line (line rest : list byte) :
  no_newline line = true -> drain (line ++ newline :: rest) = rest.
Proof.
  induction line as [|b line IH]; intros H; [reflexivity|].
  apply no_newline_cons in H as [Hb Hl]. simpl. rewrite Hb. now apply IH.
Qed.

Lemma drain_eof (line : list byte) : no_newline line = true -> drain line = [].
Proof.
  induction line as [|b line IH]; intros H; [reflexivity|].
  apply no_newline_cons in H as [Hb Hl]. simpl. rewrite Hb. now apply IH.
Qed.

Lemma drain_length (s : list byte) : (length (drain s) <= length s)%nat.
Proof.
  induction s as [|b s IH]; simpl; [lia|].
  destruct (byte_val b =? NL); lia.
Qed.

(** ** The [for] loop of si_readByte

    The loop is followed from an index [length pre]: [pre] is the part of
    the buffer already written, [suf] the part still to be written. *)

Lemma for_step (n : nat) (pre suf : list memval) (c0 : Z) (b : byte)
    (s : list byte) (err : list string) (h : nat) (m : memval) :
  (byte_val b =? NL) = false ->
  si_readByte_for (S n) (length pre) c0 (pre ++ m :: suf) (mkWorld (b :: s) err h)
  = si_readByte_for n (length (pre ++ [Char (byte_val b)])) (byte_val b)
      ((pre ++ [Char (byte_val b)]) ++ suf) (mkWorld s err h).
Proof.
  intros Hb. simpl. rewrite Hb, byte_val_not_EOF. simpl.
  rewrite to_char_byte_val.
  replace (length pre) with (length pre + 0)%nat at 2 by lia.
  rewrite insert_app_r. simpl.
  rewrite length_app. simpl.
  replace (length pre + 1)%nat with (S (length pre)) by lia.
  now rewrite <- app_assoc.
Qed.

Lemma for_newline (line : list byte) :
  forall (n : nat) (pre suf : list memval) (c0 : Z) (rest : list byte)
         (err : list string) (h : nat),
  no_newline line = true ->
  (length line < n)%nat ->
  (length line <= length suf)%nat ->
  si_readByte_for n (length pre) c0 (pre ++ suf)
    (mkWorld (line ++ newline :: rest) err h)
  = ((length pre + length line)%nat, NL,
     pre ++ chars line ++ drop (length line) suf, mkWorld rest err h).
Proof.
  induction line as [|b line IH]; intros n pre suf c0 rest err h Hnl Hn Hsuf.
  - destruct n as [|n]; [simpl in Hn; lia|]. simpl.
    now rewrite Nat.add_0_r.
  - apply no_newline_cons in Hnl as [Hb Hl].
    destruct n as [|n]; [simpl in Hn; lia|].
    destruct suf as [|m suf]; [simpl in Hsuf; lia|].
    simpl app at 2. rewrite for_step by exact Hb.
    simpl in Hn, Hsuf.
    rewrite IH by (try assumption; lia).
    rewrite length_app. simpl.
    rewrite <- app_assoc. simpl.
    now replace (length pre + 1 + length line)%nat
      with (length pre + S (length line))%nat by lia.
Qed.

Lemma for_eof (line : list byte) :
  forall (n : nat) (pre suf : list memval) (c0 : Z) (err : list string) (h : nat),
  no_newline line = true ->
  (length line < n)%nat ->
  (length line <= length suf)%nat ->
  si_readByte_for n (length pre) c0 (pre ++ suf) (mkWorld line err h)
  = ((length pre + length line)%nat, EOF,
     pre ++ chars line ++ drop (length line) suf, mkWorld [] err h).
Proof.
  induction line as [|b line IH]; intros n pre suf c0 err h Hnl Hn Hsuf.
  - destruct n as [|n]; [simpl in Hn; lia|]. simpl.
    now rewrite Nat.add_0_r.
  - apply no_newline_cons in Hnl as [Hb Hl].
    destruct n as [|n]; [simpl in Hn; lia|].
    destruct suf as [|m suf]; [simpl in Hsuf; lia|].
    rewrite for_step by exact Hb.
    simpl in Hn, Hsuf.
    rewrite IH by (try assumption; lia).
    rewrite length_app. simpl.
    rewrite <- app_assoc. simpl.
    now replace (length pre + 1 + length line)%nat
      with (length pre + S (length line))%nat by lia.
Qed.

(** The guard [i < maxLen] ends the loop: [n] bytes of a longer line are
    stored, and [c] is the last of them, neither newline nor [EOF]. *)
Lemma for_full (n : nat) :
  forall (head s : list byte) (pre suf : list memval) (c0 : Z)
         (err : list string) (h : nat),
  no_newline head = true ->
  length head = n ->
  (n <= length suf)%nat ->
  (c0 =? NL) = false -> (c0 =? EOF) = false ->
  exists c : Z,
    si_readByte_for n (length pre) c0 (pre ++ suf) (mkWorld (head ++ s) err h)
    = ((length pre + n)%nat, c, pre ++ chars head ++ drop n suf, mkWorld s err h)
    /\ (c =? NL) = false /\ (c =? EOF) = false.
Proof.
  induction n as [|n IH]; intros head s pre suf c0 err h Hnl Hlen Hsuf Hc1 Hc2.
  - destruct head; [|discriminate]. exists c0. simpl.
    now rewrite Nat.add_0_r.
  - destruct head as [|b head]; [discriminate|].
    apply no_newline_cons in Hnl as [Hb Hl].
    destruct suf as [|m suf]; [simpl in Hsuf; lia|].
    simpl in Hlen, Hsuf.
    destruct (IH head s (pre ++ [Char (byte_val b)]) suf (byte_val b) err h)
      as (c & Heq & Hc); try assumption; try lia.
    { apply byte_val_not_EOF. }
    exists c. split; [|exact Hc].
    simpl app at 2. rewrite for_step by exact Hb.
    rewrite Heq. rewrite length_app. simpl.
    rewrite <- app_assoc. simpl.
    now replace (length pre + 1 + n)%nat with (length pre + S n)%nat by lia.
Qed.

Lemma no_newline_app (l k : list byte) :
  no_newline (l ++ k) = no_newline l && no_newline k.
Proof. unfold no_newline. apply forallb_app. Qed.

Lemma no_newline_drop (n : nat) (l : list byte) :
  no_newline l = true -> no_newline (drop n l) = true.
Proof.
  intros H. rewrite <- (take_drop n l), no_newline_app in H.
  now apply andb_true_iff in H as [_ H].
Qed.

Lemma newline_unique (b : byte) : (byte_val b =? NL) = true -> b = newline.
Proof. destruct b; intros H; solve [reflexivity | discriminate H]. Qed.

(** Every input is a line that ends the stream, or a line, a newline and
    what follows. *)
Lemma stdin_shape (s : list byte) :
  exists line : list byte,
    no_newline line = true /\
    (s = line \/ exists rest : list byte, s = line ++ newline :: rest).
Proof.
  induction s as [|b s (line & Hnl & Hs)].
  - exists []. split; [reflexivity | now left].
  - destruct (byte_val b =? NL) eqn:Hb.
    + exists []. split; [reflexivity|]. right. exists s.
      now rewrite (newline_unique b Hb).
    + exists (b :: line). split.
      * unfold no_newline in *. simpl. now rewrite Hb, Hnl.
      * destruct Hs as [-> | (rest & ->)]; [now left | right; now exists rest].
Qed.

(** ** si_readByte: the five ways a read can go *)

Section ReadByte.

Variables (c : nat) (buf : list memval) (err : list string) (h : nat).
Hypothesis Hc : (1 <= c)%nat.
Hypothesis Hbuf : (c <= length buf)%nat.

Lemma readByte_line (line rest : list byte) :
  no_newline line = true ->
  (length line < c)%nat ->
  si_readByte buf c (mkWorld (line ++ newline :: rest) err h)
  = (0, chars line ++ drop (length line) buf, Some (length line),
     mkWorld rest err h).
Proof.
  intros Hnl Hlt. unfold si_readByte.
  destruct (Nat.ltb_spec c 1) as [?|_]; [lia|].
  pose proof (for_newline line c [] buf 0 rest err h Hnl Hlt ltac:(lia)) as E.
  simpl in E. rewrite E.
  replace (length line =? c)%nat with false
    by (symmetry; apply Nat.eqb_neq; lia).
  reflexivity.
Qed.

Lemma readByte_last_line (line : list byte) :
  no_newline line = true ->
  (0 < length line < c)%nat ->
  si_readByte buf c (mkWorld line err h)
  = (0, chars line ++ drop (length line) buf, Some (length line),
     mkWorld [] err h).
Proof.
  intros Hnl Hlt. unfold si_readByte.
  destruct (Nat.ltb_spec c 1) as [?|_]; [lia|].
  pose proof (for_eof line c [] buf 0 err h Hnl ltac:(lia) ltac:(lia)) as E.
  simpl in E. rewrite E.
  replace (length line =? c)%nat with false
    by (symmetry; apply Nat.eqb_neq; lia).
  replace (length line =? 0)%nat with false
    by (symmetry; apply Nat.eqb_neq; lia).
  reflexivity.
Qed.

Lemma readByte_eof :
  si_readByte buf c (mkWorld [] err h) = (EOF, buf, Some 0%nat, mkWorld [] err h).
Proof.
  unfold si_readByte.
  destruct (Nat.ltb_spec c 1) as [?|_]; [lia|].
  destruct c as [|n]; [lia|]. reflexivity.
Qed.

(** The stream from a line of [c] bytes or more: [c] bytes are stored, the
    rest of the line is drained, with its newline when there is one. *)
Lemma readByte_overrun_from (line after : list byte) :
  no_newline line = true ->
  (c <= length line)%nat ->
  si_readByte buf c (mkWorld (line ++ after) err h)
  = (1, chars (take c line) ++ drop c buf, Some c,
     mkWorld (drain (drop c line ++ after)) (err ++ [MSG_OVERRUN]) h).
Proof.
  intros Hnl Hle. unfold si_readByte.
  destruct (Nat.ltb_spec c 1) as [?|_]; [lia|].
  destruct (for_full c (take c line) (drop c line ++ after) [] buf 0 err h)
    as (x & E & Hx1 & Hx2); try reflexivity; try assumption.
  { now apply no_newline_take. }
  { now apply length_take_le. }
  rewrite app_assoc, take_drop in E. simpl in E. rewrite E.
  rewrite Nat.eqb_refl, Hx1, Hx2. reflexivity.
Qed.

Lemma readByte_overrun (line rest : list byte) :
  no_newline line = true ->
  (c <= length line)%nat ->
  si_readByte buf c (mkWorld (line ++ newline :: rest) err h)
  = (1, chars (take c line) ++ drop c buf, Some c,
     mkWorld rest (err ++ [MSG_OVERRUN]) h).
Proof.
  intros Hnl Hle. rewrite readByte_overrun_from by assumption.
  rewrite drain_line by now apply no_newline_drop. reflexivity.
Qed.

Lemma readByte_last_overrun (line : list byte) :
  no_newline line = true ->
  (c <= length line)%nat ->
  si_readByte buf c (mkWorld line err h)
  = (1, chars (take c line) ++ drop c buf, Some c,
     mkWorld [] (err ++ [MSG_OVERRUN]) h).
Proof.
  intros Hnl Hle.
  rewrite <- (app_nil_r line) at 1.
  rewrite readByte_overrun_from by assumption.
  rewrite app_nil_r, drain_eof by now apply no_newline_drop. reflexivity.
Qed.

End ReadByte.

(** Whatever the input, a read either meets the end of the stream at once
    or takes at least one byte of it; what it returns and what it leaves
    behind do not depend on the buffer it is given. *)
Lemma readByte_cases (c : nat) (w : World) :
  (1 <= c)%nat ->
  exists (r : Z) (stored : list byte) (w' : World),
    (forall buf : list memval, (c <= length buf)%nat ->
       si_readByte buf c w
       = (r, chars stored ++ drop (length stored) buf, Some (length stored), w'))
    /\ (length stored <= c)%nat
    /\ ((r = EOF /\ stdin w = [] /\ w' = w) \/
        ((r = 0 \/ r = 1) /\ (length (stdin w') < length (stdin w))%nat)).
Proof.
  intros Hc. destruct w as [s err h].
  destruct (stdin_shape s) as (line & Hnl & [-> | (rest & ->)]).
  - destruct (Nat.lt_ge_cases (length line) c) as [Hlt|Hge].
    + destruct line as [|b line].
      * exists EOF, [], (mkWorld [] err h). split; [|split; [simpl; lia|]].
        -- intros buf Hbuf. now rewrite readByte_eof.
        -- left. now repeat split.
      * exists 0, (b :: line), (mkWorld [] err h). split; [|split; [lia|]].
        -- intros buf Hbuf. rewrite readByte_last_line; try assumption;
             [reflexivity | simpl in *; lia].
        -- right. split; [now left | simpl; lia].
    + exists 1, (take c line), (mkWorld [] (err ++ [MSG_OVERRUN]) h).
      rewrite length_take_le by exact Hge. split; [|split; [lia|]].
      * intros buf Hbuf. now rewrite readByte_last_overrun.
      * right. split; [now right | simpl; lia].
  - destruct (Nat.lt_ge_cases (length line) c) as [Hlt|Hge].
    + exists 0, line, (mkWorld rest err h). split; [|split; [lia|]].
      * intros buf Hbuf. now rewrite readByte_line.
      * right. split; [now left | simpl; rewrite length_app; simpl; lia].
    + exists 1, (take c line), (mkWorld rest (err ++ [MSG_OVERRUN]) h).
      rewrite length_take_le by exact Hge. split; [|split; [lia|]].
      * intros buf Hbuf. now rewrite readByte_overrun.
      * right. split; [now right | simpl; rewrite length_app; simpl; lia].
Qed.

(** ** The buffer after [buffer[len] = '\0'] *)

Lemma terminated (stored : list byte) (buf : list memval) :
  (length stored < length buf)%nat ->
  exists tail : list memval,
    <[length stored := Char NUL]> (chars stored ++ drop (length stored) buf)
    = chars stored ++ Char NUL :: tail
    /\ length (chars stored ++ Char NUL :: tail) = length buf.
Proof.
  intros Hlt.
  destruct (drop (length stored) buf) as [|m tail] eqn:E.
  - apply (f_equal length) in E. rewrite length_drop in E. simpl in E. lia.
  - exists tail. split.
    + rewrite <- (length_chars stored) at 1.
      replace (length (chars stored)) with (length (chars stored) + 0)%nat by lia.
      now rewrite insert_app_r.
    + apply (f_equal length) in E. rewrite length_drop in E. simpl in E.
      rewrite length_app, length_chars. simpl. lia.
Qed.

Lemma c_str_terminated (l tail : list memval) :
  c_str (l ++ Char NUL :: tail) = c_str (l ++ [Char NUL]).
Proof.
  induction l as [|[|x] l IH]; simpl; try reflexivity.
  destruct (x =? NUL); [reflexivity | now rewrite IH].
Qed.

Lemma load_terminated (stored : list byte) (tail : list memval) :
  load (chars stored ++ Char NUL :: tail) 0 = Some (first_char stored).
Proof. now destruct stored. Qed.

(** ** Retry loops in general *)

Section RetryLoops.

Context {St R : Type}.
Variable world_of : St -> World.
Variable inv : St -> Prop.
Variable body : St -> option (ctl R * St).

Hypothesis Hbody : uniform world_of inv body.

Lemma while_1_uniform (n : nat) :
  forall (s1 s2 : St) (f1 f2 : nat),
    (length (stdin (world_of s1)) < n)%nat ->
    inv s1 -> inv s2 -> world_of s1 = world_of s2 ->
    (length (stdin (world_of s1)) < f1)%nat ->
    (length (stdin (world_of s1)) < f2)%nat ->
    exists (r : R) (s1' s2' : St),
      while_1 body f1 s1 = Some (r, s1') /\ while_1 body f2 s2 = Some (r, s2')
      /\ world_of s1' = world_of s2'.
Proof.
  induction n as [|n IH]; intros s1 s2 f1 f2 Hn H1 H2 Hw Hf1 Hf2; [lia|].
  destruct (Hbody s1 s2 H1 H2 Hw) as (k & s1' & s2' & E1 & E2 & I1 & I2 & Hw' & Hk).
  destruct f1 as [|f1]; [lia|]. destruct f2 as [|f2]; [lia|].
  simpl. rewrite E1, E2. destruct k as [r|].
  - now exists r, s1', s2'.
  - specialize (Hk eq_refl). apply IH; try assumption; lia.
Qed.

Lemma run_total (fuel : nat) (s : St) :
  inv s -> (length (stdin (world_of s)) < fuel)%nat ->
  exists (r : R) (w' : World), run world_of body fuel s = Some (r, w').
Proof.
  intros Hs Hf.
  destruct (while_1_uniform (S (length (stdin (world_of s)))) s s fuel fuel)
    as (r & s' & _ & E & _); try assumption; try reflexivity; try lia.
  exists r, (world_of s'). unfold run. now rewrite E.
Qed.

Lemma run_return (fuel : nat) (s s' : St) (r : R) :
  body s = Some (Return r, s') -> run world_of body (S fuel) s = Some (r, world_of s').
Proof. intros E. unfold run. simpl. now rewrite E. Qed.

Lemma run_continue (f1 f2 : nat) (s s' s2 : St) :
  inv s -> inv s2 ->
  body s = Some (Continue, s') ->
  world_of s2 = world_of s' ->
  (length (stdin (world_of s)) < f1)%nat ->
  (length (stdin (world_of s2)) < f2)%nat ->
  run world_of body f1 s = run world_of body f2 s2.
Proof.
  intros Hs Hs2 E Hw Hf1 Hf2.
  destruct (Hbody s s Hs Hs eq_refl) as (k & s1' & _ & E1 & _ & I1 & _ & _ & Hk).
  rewrite E in E1. injection E1 as <- <-. specialize (Hk eq_refl).
  destruct f1 as [|f1]; [lia|]. unfold run at 1. simpl. rewrite E.
  destruct (while_1_uniform (S (length (stdin (world_of s')))) s' s2 f1 f2)
    as (r & t1 & t2 & W1 & W2 & Hw'); try assumption; try lia;
    try (symmetry; assumption); try (rewrite <- Hw; lia).
  unfold run. now rewrite W1, W2, Hw'.
Qed.

(** Two states from which the first iteration does the same. *)
Lemma run_same_body (f1 f2 : nat) (s1 s2 : St) :
  inv s1 -> inv s2 ->
  body s1 = body s2 ->
  (length (stdin (world_of s1)) < f1)%nat ->
  (length (stdin (world_of s2)) < f2)%nat ->
  run world_of body f1 s1 = run world_of body f2 s2.
Proof.
  intros I1 I2 E Hf1 Hf2.
  destruct (Hbody s1 s1 I1 I1 eq_refl) as (k & t & _ & E1 & _ & It & _ & _ & Hk1).
  destruct (Hbody s2 s2 I2 I2 eq_refl) as (k2 & t2 & _ & E2 & _ & _ & _ & _ & Hk2).
  rewrite <- E, E1 in E2. injection E2 as <- <-.
  destruct f1 as [|f1]; [lia|]. destruct f2 as [|f2]; [lia|].
  unfold run. simpl. rewrite <- E, E1. destruct k as [r|]; [reflexivity|].
  specialize (Hk1 eq_refl). specialize (Hk2 eq_refl).
  destruct (while_1_uniform (S (length (stdin (world_of t)))) t t f1 f2)
    as (r & t1' & t2' & W1 & W2 & Hw'); try assumption; try reflexivity; try lia.
  now rewrite W1, W2, Hw'.
Qed.

(** A loop whose [return]s either are of a kind [P] or have consumed input
    ends in one of these two ways. *)
Lemma while_1_progress (P : R -> Prop) :
  (forall (s s' : St) (r : R),
      inv s -> body s = Some (Return r, s') ->
      P r \/ (length (stdin (world_of s')) < length (stdin (world_of s)))%nat) ->
  forall (fuel : nat) (s s' : St) (r : R),
    inv s -> while_1 body fuel s = Some (r, s') ->
    P r \/ (length (stdin (world_of s')) < length (stdin (world_of s)))%nat.
Proof.
  intros Hret. induction fuel as [|fuel IH]; intros s s' r Hs E; [discriminate|].
  simpl in E.
  destruct (Hbody s s Hs Hs eq_refl) as (k & s1 & _ & E1 & _ & I1 & _ & _ & Hk).
  rewrite E1 in E. destruct k as [r1|].
  - injection E as <- <-. now apply Hret.
  - specialize (Hk eq_refl).
    destruct (IH s1 s' r I1 E) as [HP | Hlt]; [now left | right; lia].
Qed.

End RetryLoops.

(** ** Functions made of a buffer and a retry loop *)

Section Accessors.

Context {R : Type}.
Variable size : nat.
Variable body : frame -> option (ctl R * frame).
Hypothesis Hbody : uniform snd (sized size) body.

Lemma retry_loop_run (w : World) :
  retry_loop size body w = run snd body (S (length (stdin w))) (fresh size, w).
Proof.
  unfold retry_loop, run.
  match goal with
  | |- match ?x with _ => _ end = match ?y with _ => _ end =>
      change y with x; destruct x as [[r [b w']]|]
  end; reflexivity.
Qed.

Lemma sized_fresh (w : World) : sized size (fresh size, w).
Proof. unfold sized, fresh. simpl. apply length_replicate. Qed.

(** The loop always comes to a [return]. *)
Lemma retry_loop_total (w : World) :
  exists (r : R) (w' : World), retry_loop size body w = Some (r, w').
Proof.
  rewrite retry_loop_run.
  apply (run_total snd (sized size) body Hbody); [apply sized_fresh | simpl; lia].
Qed.

Lemma retry_loop_return (w w' : World) (b' : list memval) (r : R) :
  body (fresh size, w) = Some (Return r, (b', w')) ->
  retry_loop size body w = Some (r, w').
Proof.
  intros E. rewrite retry_loop_run.
  now rewrite (run_return snd body _ _ _ _ E).
Qed.

(** An iteration that goes round again: the function behaves as if called
    anew on what is left of the input. *)
Lemma retry_loop_continue (w w' : World) (b' : list memval) :
  body (fresh size, w) = Some (Continue, (b', w')) ->
  retry_loop size body w = retry_loop size body w'.
Proof.
  intros E. rewrite !retry_loop_run.
  apply (run_continue snd (sized size) body Hbody _ _ _ _ _
           (sized_fresh w) (sized_fresh w') E); simpl; try reflexivity; lia.
Qed.

(** One iteration, from what it decides. *)
Lemma retry_loop_decides (w w' : World) (k : ctl R) :
  decision (body (fresh size, w)) = Some (k, w') ->
  retry_loop size body w
  = match k with
    | Return r => Some (r, w')
    | Continue => retry_loop size body w'
    end.
Proof.
  unfold decision. destruct (body (fresh size, w)) as [[k1 [b1 w1]]|] eqn:E;
    [|discriminate].
  intros [= <- <-]. destruct k1 as [r|].
  - now apply retry_loop_return with b1.
  - now apply retry_loop_continue with b1.
Qed.

Lemma retry_loop_progress (P : R -> Prop) :
  (forall (s s' : frame) (r : R),
      sized size s -> body s = Some (Return r, s') ->
      P r \/ (length (stdin (snd s')) < length (stdin (snd s)))%nat) ->
  forall (w w' : World) (r : R),
    retry_loop size body w = Some (r, w') ->
    P r \/ (length (stdin w') < length (stdin w))%nat.
Proof.
  intros Hret w w' r E. unfold retry_loop in E.
  destruct (while_1 body _ _) as [[r1 [b1 w1]]|] eqn:W; [|discriminate].
  injection E as <- <-.
  apply (while_1_progress snd (sized size) body Hbody P Hret _ _ _ _
           (sized_fresh w) W).
Qed.

End Accessors.

(** ** The bodies of the accessors are uniform *)

(** Arithmetic on the sizes of the buffers. *)
Ltac sizes :=
  unfold INPUT_BUFFER_SIZE, CHAR_INPUT_BUFFER_SIZE in *; simpl in *; lia.

(** Two frames with one environment; the read is replaced by its result. *)
Ltac read_both size body :=
  let b1 := fresh "b1" in let b2 := fresh "b2" in
  let w1 := fresh "w" in let w2 := fresh "w2" in
  let H1 := fresh "H1" in let H2 := fresh "H2" in let Hw := fresh "Hw" in
  let r := fresh "r" in let stored := fresh "stored" in
  let w' := fresh "w'" in let Hread := fresh "Hread" in
  let Hlen := fresh "Hlen" in let Hcase := fresh "Hcase" in
  intros [b1 w1] [b2 w2] H1 H2 Hw; unfold sized in *; simpl in H1, H2, Hw;
  subst w2;
  destruct (readByte_cases size w1) as (r & stored & w' & Hread & Hlen & Hcase);
  [sizes|];
  unfold body;
  rewrite (Hread b1), (Hread b2) by sizes;
  destruct (terminated stored b1) as (?t1 & ?E1 & ?L1); [sizes|];
  destruct (terminated stored b2) as (?t2 & ?E2 & ?L2); [sizes|].

(** The terminator is written: both frames hold the same string. *)
Ltac terminate stored :=
  cbv beta iota zeta;
  repeat match goal with E : <[_ := _]> _ = _ |- _ => rewrite !E end;
  repeat match goal with
    | |- context [c_str (?l ++ Char NUL :: ?t)] =>
        lazymatch t with
        | [] => fail
        | _ => rewrite (c_str_terminated l t)
        end
    end;
  rewrite ?load_terminated;
  fold (line_str stored).

(** Both frames took the same branch. *)
Ltac same_branch :=
  eexists _, _, _;
  split; [reflexivity|]; split; [reflexivity|];
  unfold sized; simpl;
  rewrite ?length_app, ?length_chars, ?length_drop in *; simpl in *;
  repeat split; solve [lia | discriminate | congruence].

(** The tests on the result of the read. *)
Ltac result_known :=
  change (EOF =? EOF) with true; change (EOF =? 0) with false;
  change (EOF =? 1) with false; change (0 =? EOF) with false;
  change (0 =? 0) with true; change (0 =? 1) with false;
  change (1 =? EOF) with false; change (1 =? 0) with false;
  change (1 =? 1) with true;
  change (negb true) with false; change (negb false) with true;
  cbv beta iota zeta.

Ltac branches :=
  repeat (cbv beta iota zeta;
          match goal with |- context [if ?c then _ else _] => destruct c end);
  same_branch.

(** The three results of the read, for a body that converts the line with
    [conv]. *)
Ltac numeric_body size body conv :=
  read_both size body;
  match goal with
  | Hcase : _ \/ _ |- _ =>
      destruct Hcase as [(-> & _ & _) | ([-> | ->] & ?Hprog)]
  end;
  result_known;
  match goal with stored : list byte |- _ => terminate stored end;
  try (match goal with
       | stored : list byte |- _ =>
           destruct (conv (line_str stored)) as [[?value ?endptr] ?errno]
       end);
  branches.

Lemma si_getInt_body_uniform (dm : data_model) :
  uniform snd (sized INPUT_BUFFER_SIZE) (si_getInt_body dm).
Proof. numeric_body (INPUT_BUFFER_SIZE - 1)%nat si_getInt_body (strtol dm). Qed.

Lemma si_getUInt_body_uniform (dm : data_model) :
  uniform snd (sized INPUT_BUFFER_SIZE) (si_getUInt_body dm).
Proof. numeric_body (INPUT_BUFFER_SIZE - 1)%nat si_getUInt_body (strtoul dm). Qed.

Lemma si_getFloat_body_uniform (float : Type) (NAN : float)
    (strtof : list Z -> float * nat * Z) (isfinite : float -> bool) :
  uniform snd (sized INPUT_BUFFER_SIZE) (si_getFloat_body float NAN strtof isfinite).
Proof. numeric_body (INPUT_BUFFER_SIZE - 1)%nat si_getFloat_body strtof. Qed.

Lemma si_getLong_body_uniform (dm : data_model) :
  uniform snd (sized INPUT_BUFFER_SIZE) (si_getLong_body dm).
Proof. numeric_body (INPUT_BUFFER_SIZE - 1)%nat si_getLong_body (strtol dm). Qed.

Lemma si_getULong_body_uniform (dm : data_model) :
  uniform snd (sized INPUT_BUFFER_SIZE) (si_getULong_body dm).
Proof. numeric_body (INPUT_BUFFER_SIZE - 1)%nat si_getULong_body (strtoul dm). Qed.

Lemma si_getLongLong_body_uniform :
  uniform snd (sized INPUT_BUFFER_SIZE) si_getLongLong_body.
Proof. numeric_body (INPUT_BUFFER_SIZE - 1)%nat si_getLongLong_body strtoll. Qed.

Lemma si_getULongLong_body_uniform :
  uniform snd (sized INPUT_BUFFER_SIZE) si_getULongLong_body.
Proof. numeric_body (INPUT_BUFFER_SIZE - 1)%nat si_getULongLong_body strtoull. Qed.

Lemma si_getChar_body_uniform :
  uniform snd (sized CHAR_INPUT_BUFFER_SIZE) si_getChar_body.
Proof.
  numeric_body (CHAR_INPUT_BUFFER_SIZE - 1)%nat si_getChar_body (@id (list Z)).
Qed.

Lemma si_getCharFiltered_body_uniform (allowed : list Z) :
  uniform snd (sized CHAR_INPUT_BUFFER_SIZE) (si_getCharFiltered_body allowed).
Proof.
  numeric_body (CHAR_INPUT_BUFFER_SIZE - 1)%nat si_getCharFiltered_body (@id (list Z)).
Qed.

(** ** The line reader: lines shorter than the capacity, and the others *)

(** C1.  For a capacity [c >= 1] (and a buffer that has [c] bytes) and a
    line of [L] bytes followed by its newline: if [L < c], [si_readByte]
    returns 0, reports the length [L] and has stored the [L] bytes of the
    line at the start of the buffer; if [L >= c], it returns 1 (overrun),
    the buffer starts with exactly the first [c] bytes of the line, the
    overrun is reported, and the input stands just after the newline of
    that line.  The same holds for a non-empty last line that the end of
    the stream terminates; the input is then exhausted. *)
Theorem C1_bounded_line_reader (c : nat) (buf : list memval)
    (line rest : list byte) (err : list string) (h : nat) :
  (1 <= c)%nat ->
  (c <= length buf)%nat ->
  no_newline line = true ->
  ((length line < c)%nat ->
     si_readByte buf c (mkWorld (line ++ newline :: rest) err h)
     = (0, chars line ++ drop (length line) buf, Some (length line),
        mkWorld rest err h))
  /\ ((c <= length line)%nat ->
     si_readByte buf c (mkWorld (line ++ newline :: rest) err h)
     = (1, chars (take c line) ++ drop c buf, Some c,
        mkWorld rest (err ++ [MSG_OVERRUN]) h))
  /\ ((0 < length line < c)%nat ->
     si_readByte buf c (mkWorld line err h)
     = (0, chars line ++ drop (length line) buf, Some (length line),
        mkWorld [] err h))
  /\ ((c <= length line)%nat ->
     si_readByte buf c (mkWorld line err h)
     = (1, chars (take c line) ++ drop c buf, Some c,
        mkWorld [] (err ++ [MSG_OVERRUN]) h)).
Proof.
  intros Hc Hbuf Hnl. repeat split; intros HL.
  - now apply readByte_line.
  - now apply readByte_overrun.
  - now apply readByte_last_line.
  - now apply readByte_last_overrun.
Qed.

Lemma C1_witness :
  si_readByte (fresh 4) 3 (mkWorld (bytes_of "hi" ++ newline :: bytes_of "x") [] 0)
  = (0, [Char 104; Char 105; Undef; Undef], Some 2%nat, mkWorld (bytes_of "x") [] 0)
  /\ si_readByte (fresh 4) 3 (mkWorld (bytes_of "hello" ++ newline :: bytes_of "x") [] 0)
     = (1, [Char 104; Char 101; Char 108; Undef], Some 3%nat,
        mkWorld (bytes_of "x") [MSG_OVERRUN] 0).
Proof.
  split.
  - apply (C1_bounded_line_reader 3 (fresh 4) (bytes_of "hi") (bytes_of "x") [] 0);
      [lia | simpl; lia | reflexivity | simpl; lia].
  - apply (C1_bounded_line_reader 3 (fresh 4) (bytes_of "hello") (bytes_of "x") [] 0);
      [lia | simpl; lia | reflexivity | simpl; lia].
Defined.

(** C3.  With a capacity of at least 1: at the end of the stream (no byte
    left) [si_readByte] returns [EOF], which is not the success value 0; on
    an empty line (a newline first) it returns 0 with length 0.  Conversely
    [EOF] is returned only at the end of the stream and success with length
    0 only for an empty line, so the two outcomes are never confused. *)
Theorem C3_end_of_stream_is_not_an_empty_line (maxLen : nat)
    (buf : list memval) (w : World) :
  (1 <= maxLen)%nat ->
  (maxLen <= length buf)%nat ->
  (stdin w = [] -> si_readByte buf maxLen w = (EOF, buf, Some 0%nat, w))
  /\ (forall rest : list byte, stdin w = newline :: rest ->
        si_readByte buf maxLen w
        = (0, buf, Some 0%nat, mkWorld rest (stderr w) (heap_free w)))
  /\ EOF <> 0
  /\ (forall buf' outLen w',
        si_readByte buf maxLen w = (EOF, buf', outLen, w') -> stdin w = [])
  /\ (forall buf' w',
        si_readByte buf maxLen w = (0, buf', Some 0%nat, w') ->
        exists rest : list byte, stdin w = newline :: rest).
Proof.
  intros Hc Hbuf. destruct w as [s err h]. simpl.
  split; [|split; [|split; [|split]]].
  - intros ->. now apply readByte_eof.
  - intros rest ->.
    apply (readByte_line maxLen buf err h Hc Hbuf [] rest eq_refl).
    simpl. lia.
  - discriminate.
  - intros buf' outLen w'.
    destruct (readByte_cases maxLen (mkWorld s err h) Hc)
      as (r & stored & w1 & Hread & _ & [(-> & Hs & _) | ([-> | ->] & _)]);
      rewrite (Hread buf Hbuf); intros E; [exact Hs | discriminate E ..].
  - intros buf' w'.
    destruct (stdin_shape s) as (line & Hnl & [-> | (rest & ->)]);
      destruct (Nat.lt_ge_cases (length line) maxLen) as [Hlt | Hge].
    + destruct line as [|b line].
      * rewrite readByte_eof by assumption. discriminate.
      * rewrite readByte_last_line by (try assumption; simpl in *; lia).
        discriminate.
    + rewrite readByte_last_overrun by assumption. discriminate.
    + rewrite readByte_line by assumption. intros E.
      destruct line; [now exists rest | discriminate E].
    + rewrite readByte_overrun by assumption. discriminate.
Qed.

Lemma C3_witness :
  si_readByte (fresh 4) 3 (mkWorld [] [] 0) = (EOF, fresh 4, Some 0%nat, mkWorld [] [] 0)
  /\ si_readByte (fresh 4) 3 (mkWorld (newline :: bytes_of "x") [] 0)
     = (0, fresh 4, Some 0%nat, mkWorld (bytes_of "x") [] 0).
Proof.
  split.
  - apply (C3_end_of_stream_is_not_an_empty_line 3 (fresh 4) (mkWorld [] [] 0));
      [lia | simpl; lia | reflexivity].
  - apply (C3_end_of_stream_is_not_an_empty_line 3 (fresh 4)
             (mkWorld (newline :: bytes_of "x") [] 0));
      [lia | simpl; lia | reflexivity].
Defined.

(** ** si_getInt *)

Lemma si_getInt_decides (dm : data_model) (w w' : World) (k : ctl Z) :
  decision (si_getInt_body dm (fresh INPUT_BUFFER_SIZE, w)) = Some (k, w') ->
  si_getInt dm w
  = match k with
    | Return r => Some (r, w')
    | Continue => si_getInt dm w'
    end.
Proof. apply retry_loop_decides, si_getInt_body_uniform. Qed.

(** [si_getInt] always returns. *)
Lemma si_getInt_total (dm : data_model) (w : World) :
  exists (r : Z) (w' : World), si_getInt dm w = Some (r, w').
Proof. apply retry_loop_total, si_getInt_body_uniform. Qed.

Lemma line_str_no_NUL (line : list byte) :
  no_NUL line = true -> line_str line = byte_val <$> line.
Proof.
  unfold line_str. induction line as [|b line IH]; intros H; [reflexivity|].
  unfold no_NUL in *. simpl in H. apply andb_true_iff in H as [Hb Hl].
  apply negb_true_iff in Hb. simpl. rewrite Hb. now rewrite IH.
Qed.

Lemma deref_no_NUL (line : list byte) (k : nat) :
  no_NUL line = true ->
  (k < length line)%nat ->
  (deref (byte_val <$> line) k =? NUL) = false.
Proof.
  unfold deref. revert k. induction line as [|b line IH]; intros k H Hk.
  - simpl in Hk. lia.
  - unfold no_NUL in *. simpl in H. apply andb_true_iff in H as [Hb Hl].
    destruct k as [|k]; simpl.
    + now apply negb_true_iff.
    + apply IH; [exact Hl | simpl in Hk; lia].
Qed.

(** One line through [si_getInt]: the tests of the source on the result of
    [strtol], applied to the string the line makes. *)
Lemma si_getInt_line (dm : data_model) (line rest : list byte)
    (err : list string) (h : nat) :
  no_newline line = true ->
  (length line < 127)%nat ->
  si_getInt dm (mkWorld (line ++ newline :: rest) err h)
  = let '(value, endptr, errno) := strtol dm (line_str line) in
    if (endptr =? 0)%nat || negb (deref (line_str line) endptr =? NUL)
       || (errno =? ERANGE) || negb (value =? to_int value)
    then si_getInt dm (mkWorld rest (err ++ [MSG_INVALID]) h)
    else Some (to_int value, mkWorld rest err h).
Proof.
  intros Hnl Hlen.
  assert (D : decision (si_getInt_body dm
                (fresh INPUT_BUFFER_SIZE, mkWorld (line ++ newline :: rest) err h))
              = let '(value, endptr, errno) := strtol dm (line_str line) in
                if (endptr =? 0)%nat || negb (deref (line_str line) endptr =? NUL)
                   || (errno =? ERANGE) || negb (value =? to_int value)
                then Some (Continue, mkWorld rest (err ++ [MSG_INVALID]) h)
                else Some (Return (to_int value), mkWorld rest err h)).
  { unfold si_getInt_body.
    rewrite readByte_line
      by (try exact Hnl; unfold fresh; rewrite ?length_replicate; sizes).
    result_known.
    destruct (terminated line (fresh INPUT_BUFFER_SIZE)) as (tail & E & L).
    { unfold fresh. rewrite length_replicate. sizes. }
    rewrite E, c_str_terminated. fold (line_str line).
    destruct (strtol dm (line_str line)) as [[value endptr] errno].
    now destruct (_ || _). }
  destruct (strtol dm (line_str line)) as [[value endptr] errno].
  destruct (_ || _); now rewrite (si_getInt_decides _ _ _ _ D).
Qed.

(** C5, as the code has it.  [si_getInt] converts the whole line or
    nothing, for lines that hold no NUL byte: the line "123"
    returns 123; the line "123abc" and the empty line are rejected with the
    "Invalid input" diagnostic and the function reads on (it behaves as a
    call on the rest of the input); "2147483647", the decimal form of
    [INT_MAX], is accepted and returned; with one more digit,
    "21474836470", the line is rejected in the same way.  In general a line
    of text (fewer than 127 bytes, none of them NUL) of which [strtol]
    leaves a suffix unconsumed is rejected.  On every input the function
    comes to a result.  This holds for 32-bit and for 64-bit [long]. *)
Theorem C5_si_getInt_strict (dm : data_model) (line rest : list byte)
    (err : list string) (h : nat) :
  si_getInt dm (mkWorld (bytes_of "123" ++ newline :: rest) err h)
  = Some (123, mkWorld rest err h)
  /\ si_getInt dm (mkWorld (bytes_of "123abc" ++ newline :: rest) err h)
     = si_getInt dm (mkWorld rest (err ++ [MSG_INVALID]) h)
  /\ si_getInt dm (mkWorld (newline :: rest) err h)
     = si_getInt dm (mkWorld rest (err ++ [MSG_INVALID]) h)
  /\ si_getInt dm (mkWorld (bytes_of "2147483647" ++ newline :: rest) err h)
     = Some (INT_MAX, mkWorld rest err h)
  /\ si_getInt dm (mkWorld (bytes_of "21474836470" ++ newline :: rest) err h)
     = si_getInt dm (mkWorld rest (err ++ [MSG_INVALID]) h)
  /\ (no_newline line = true ->
      no_NUL line = true ->
      (length line < 127)%nat ->
      (snd (fst (strtol dm (byte_val <$> line))) < length line)%nat ->
      si_getInt dm (mkWorld (line ++ newline :: rest) err h)
      = si_getInt dm (mkWorld rest (err ++ [MSG_INVALID]) h))
  /\ (forall w : World, exists (r : Z) (w' : World), si_getInt dm w = Some (r, w')).
Proof.
  split; [|split; [|split; [|split; [|split; [|split]]]]];
    [| | | | | |apply si_getInt_total].
  - rewrite (si_getInt_decides dm _ (mkWorld rest err h) (Return 123));
      [reflexivity | destruct dm; vm_compute; reflexivity].
  - rewrite (si_getInt_decides dm _ (mkWorld rest (err ++ [MSG_INVALID]) h) Continue);
      [reflexivity | destruct dm; vm_compute; reflexivity].
  - rewrite (si_getInt_decides dm _ (mkWorld rest (err ++ [MSG_INVALID]) h) Continue);
      [reflexivity | destruct dm; vm_compute; reflexivity].
  - rewrite (si_getInt_decides dm _ (mkWorld rest err h) (Return INT_MAX));
      [reflexivity | destruct dm; vm_compute; reflexivity].
  - rewrite (si_getInt_decides dm _ (mkWorld rest (err ++ [MSG_INVALID]) h) Continue);
      [reflexivity | destruct dm; vm_compute; reflexivity].
  - intros Hnl Hnul Hlen Hsuffix.
    rewrite si_getInt_line by assumption.
    rewrite line_str_no_NUL by exact Hnul.
    destruct (strtol dm (byte_val <$> line)) as [[value endptr] errno].
    simpl in Hsuffix. rewrite deref_no_NUL by assumption.
    now rewrite orb_true_r.
Qed.

Lemma C5_witness :
  si_getInt LP64 (mkWorld (bytes_of "12 3" ++ newline :: bytes_of "x") [] 0)
  = si_getInt LP64 (mkWorld (bytes_of "x") [MSG_INVALID] 0).
Proof.
  apply (C5_si_getInt_strict LP64 (bytes_of "12 3") (bytes_of "x") [] 0);
    [reflexivity | reflexivity | simpl; lia | vm_compute; lia].
Defined.

(** C5 as the specification states it, for every line with an unconsumed
    suffix, fails on a line that holds a NUL byte.  Of the seven bytes of
    the line 123, NUL, abc [strtol] consumes three, and the line is
    accepted: 123 is returned, no diagnostic is written and the next line,
    "7", is left unread, where a rejection would have gone on to return
    7. *)
Lemma C5_counterexample :
  snd (fst (strtol LP64 (byte_val <$> bytes_of "123" ++ x00 :: bytes_of "abc"))) = 3%nat
  /\ si_getInt LP64
       (mkWorld ((bytes_of "123" ++ x00 :: bytes_of "abc")
                 ++ newline :: bytes_of "7" ++ [newline]) [] 0)
     = Some (123, mkWorld (bytes_of "7" ++ [newline]) [] 0)
  /\ si_getInt LP64 (mkWorld (bytes_of "7" ++ [newline]) [MSG_INVALID] 0)
     = Some (7, mkWorld [] [MSG_INVALID] 0)
  /\ ~ rejects_unconsumed_suffix LP64.
Proof.
  assert (E1 : si_getInt LP64
                 (mkWorld ((bytes_of "123" ++ x00 :: bytes_of "abc")
                           ++ newline :: bytes_of "7" ++ [newline]) [] 0)
               = Some (123, mkWorld (bytes_of "7" ++ [newline]) [] 0))
    by (vm_compute; reflexivity).
  assert (E2 : si_getInt LP64 (mkWorld (bytes_of "7" ++ [newline]) [MSG_INVALID] 0)
               = Some (7, mkWorld [] [MSG_INVALID] 0))
    by (vm_compute; reflexivity).
  split; [vm_compute; reflexivity | split; [exact E1 | split; [exact E2|]]].
  intros H.
  specialize (H (bytes_of "123" ++ x00 :: bytes_of "abc") (bytes_of "7" ++ [newline])
                [] 0%nat eq_refl ltac:(simpl; lia) ltac:(vm_compute; lia)).
  change ([] ++ [MSG_INVALID]) with [MSG_INVALID] in H.
  rewrite E1, E2 in H. discriminate H.
Qed.

(** The conversion reads a C string: it stops at a NUL byte of the input,
    and the test [*endptr != '\0'] passes there. *)
Lemma si_getInt_stops_at_NUL (dm : data_model) (rest : list byte)
    (err : list string) (h : nat) :
  si_getInt dm
    (mkWorld (bytes_of "123" ++ x00 :: bytes_of "abc" ++ newline :: rest) err h)
  = Some (123, mkWorld rest err h).
Proof.
  rewrite (si_getInt_decides dm _ (mkWorld rest err h) (Return 123));
    [reflexivity | destruct dm; vm_compute; reflexivity].
Qed.

(** ** si_getChar *)

Lemma si_getChar_decides (w w' : World) (k : ctl Z) :
  decision (si_getChar_body (fresh CHAR_INPUT_BUFFER_SIZE, w)) = Some (k, w') ->
  si_getChar w
  = match k with
    | Return r => Some (r, w')
    | Continue => si_getChar w'
    end.
Proof. apply retry_loop_decides, si_getChar_body_uniform. Qed.

Lemma si_getChar_total (w : World) :
  exists (r : Z) (w' : World), si_getChar w = Some (r, w').
Proof. apply retry_loop_total, si_getChar_body_uniform. Qed.

Lemma si_getChar_eof (err : list string) (h : nat) :
  si_getChar (mkWorld [] err h) = Some (EOF, mkWorld [] err h).
Proof. now rewrite (si_getChar_decides _ (mkWorld [] err h) (Return EOF)). Qed.

Lemma si_getChar_empty_line (rest : list byte) (err : list string) (h : nat) :
  si_getChar (mkWorld (newline :: rest) err h) = Some (NL, mkWorld rest err h).
Proof. now rewrite (si_getChar_decides _ (mkWorld rest err h) (Return NL)). Qed.

Lemma si_getChar_one_byte (b : byte) (rest : list byte) (err : list string) (h : nat) :
  b <> newline ->
  si_getChar (mkWorld (b :: newline :: rest) err h)
  = Some (byte_val b, mkWorld rest err h).
Proof.
  intros Hb.
  assert (Hnl : no_newline [b] = true).
  { unfold no_newline. simpl. destruct (byte_val b =? NL) eqn:E; [|reflexivity].
    now apply newline_unique in E. }
  rewrite (si_getChar_decides _ (mkWorld rest err h) (Return (byte_val b)));
    [reflexivity|].
  unfold si_getChar_body.
  change (b :: newline :: rest) with ([b] ++ newline :: rest).
  rewrite readByte_line by (try exact Hnl; sizes).
  simpl. now rewrite to_char_byte_val.
Qed.

(** A line of two bytes is refused by [si_getChar] itself, a longer one
    by the line reader: the capacity is 3. *)
Lemma si_getChar_long_line (line rest : list byte) (err : list string) (h : nat) :
  no_newline line = true ->
  (2 <= length line)%nat ->
  si_getChar (mkWorld (line ++ newline :: rest) err h)
  = si_getChar
      (mkWorld rest
         (err ++ [if (length line =? 2)%nat then MSG_SINGLE_CHAR else MSG_OVERRUN]) h).
Proof.
  intros Hnl Hlen.
  match goal with |- _ = si_getChar ?w' => rewrite (si_getChar_decides _ w' Continue) end;
    [reflexivity|].
  unfold si_getChar_body.
  destruct (Nat.lt_ge_cases (length line) 3) as [Hlt | Hge].
  - rewrite readByte_line by (try exact Hnl; sizes).
    destruct line as [|x [|y [|z line]]]; simpl in Hlen, Hlt; try lia.
    reflexivity.
  - rewrite readByte_overrun by (try exact Hnl; sizes).
    replace (length line =? 2)%nat with false
      by (symmetry; apply Nat.eqb_neq; lia).
    reflexivity.
Qed.

(** C7.  [si_getChar] on a line, newline included: the empty line returns
    the newline character; a line of one byte returns the value of that
    byte; a line of two bytes or more is rejected with a diagnostic and the
    function reads on, behaving as a call on the rest of the input.  On
    every input the function comes to a result. *)
Theorem C7_si_getChar_lines (b : byte) (line rest : list byte)
    (err : list string) (h : nat) :
  b <> newline ->
  no_newline line = true ->
  (2 <= length line)%nat ->
  si_getChar (mkWorld (newline :: rest) err h) = Some (NL, mkWorld rest err h)
  /\ si_getChar (mkWorld (b :: newline :: rest) err h)
     = Some (byte_val b, mkWorld rest err h)
  /\ si_getChar (mkWorld (line ++ newline :: rest) err h)
     = si_getChar
         (mkWorld rest
            (err ++ [if (length line =? 2)%nat then MSG_SINGLE_CHAR else MSG_OVERRUN])
            h)
  /\ (forall w : World, exists (r : Z) (w' : World), si_getChar w = Some (r, w')).
Proof.
  intros Hb Hnl Hlen. split; [|split; [|split]].
  - apply si_getChar_empty_line.
  - now apply si_getChar_one_byte.
  - now apply si_getChar_long_line.
  - apply si_getChar_total.
Qed.

Lemma C7_witness :
  si_getChar (mkWorld (newline :: bytes_of "x") [] 0)
  = Some (NL, mkWorld (bytes_of "x") [] 0)
  /\ si_getChar (mkWorld ("a"%byte :: newline :: bytes_of "x") [] 0)
     = Some (97, mkWorld (bytes_of "x") [] 0)
  /\ si_getChar (mkWorld (bytes_of "ab" ++ newline :: bytes_of "x") [] 0)
     = si_getChar (mkWorld (bytes_of "x") [MSG_SINGLE_CHAR] 0).
Proof.
  destruct (C7_si_getChar_lines "a"%byte (bytes_of "ab") (bytes_of "x") [] 0)
    as (H1 & H2 & H3 & _); [discriminate | reflexivity | simpl; lia |].
  split; [exact H1 | split; [exact H2 | exact H3]].
Defined.

(** A value other than [EOF] has cost [si_getChar] at least one byte. *)
Lemma si_getChar_progress (w w' : World) (c : Z) :
  si_getChar w = Some (c, w') ->
  c = EOF \/ (length (stdin w') < length (stdin w))%nat.
Proof.
  apply (retry_loop_progress CHAR_INPUT_BUFFER_SIZE si_getChar_body
           si_getChar_body_uniform (fun r => r = EOF)).
  intros [b w0] [b' w1] r Hs E. unfold sized in Hs. simpl in Hs. simpl.
  destruct (readByte_cases (CHAR_INPUT_BUFFER_SIZE - 1) w0)
    as (r0 & stored & w2 & Hread & Hlen & Hcase); [sizes|].
  unfold si_getChar_body in E. rewrite (Hread b) in E by sizes.
  destruct Hcase as [(-> & _ & _) | ([-> | ->] & Hprog)]; revert E; result_known.
  - intros [= <- _ _]. now left.
  - repeat match goal with |- context [if ?c then _ else _] => destruct c end;
      try destruct (load _ _); intros [= _ _ <-]; now right.
  - discriminate.
Qed.

(** ** si_getBool *)

Lemma byte_val_inj (a b : byte) : byte_val a = byte_val b -> a = b.
Proof.
  unfold byte_val. intros E. apply N2Z.inj in E.
  pose proof (Byte.of_to_N a) as Ha. rewrite E, Byte.of_to_N in Ha.
  now injection Ha.
Qed.

Lemma si_getBool_body_uniform :
  uniform (fun w : World => w) (fun _ => True) si_getBool_body.
Proof.
  intros w ? _ _ <-.
  destruct (si_getChar_total w) as (c & w' & E).
  destruct (si_getChar_progress w w' c E) as [-> | Hlt];
    unfold si_getBool_body; rewrite E.
  - result_known. eexists _, _, _. repeat split; discriminate.
  - repeat match goal with |- context [if ?c then _ else _] => destruct c end;
      eexists _, _, _; repeat split; solve [discriminate | simpl; lia].
Qed.

Lemma si_getBool_run (w : World) :
  si_getBool w = run (fun w : World => w) si_getBool_body (S (length (stdin w))) w.
Proof.
  unfold si_getBool, run.
  now destruct (while_1 si_getBool_body (S (length (stdin w))) w) as [[r w']|].
Qed.

Lemma si_getBool_total (w : World) :
  exists (r : bool) (w' : World), si_getBool w = Some (r, w').
Proof.
  rewrite si_getBool_run.
  apply (run_total _ (fun _ => True) _ si_getBool_body_uniform); [exact I | lia].
Qed.

Lemma si_getBool_decides (w w' : World) (k : ctl bool) :
  si_getBool_body w = Some (k, w') ->
  si_getBool w
  = match k with
    | Return r => Some (r, w')
    | Continue => si_getBool w'
    end.
Proof.
  intros E. destruct k as [r|].
  - unfold si_getBool. simpl. now rewrite E.
  - rewrite !si_getBool_run.
    apply (run_continue _ (fun _ => True) _ si_getBool_body_uniform _ _ w w' w');
      try exact I; try assumption; try reflexivity; lia.
Qed.

(** The answers of [si_getBool] to a line of one byte. *)
Lemma si_getBool_one_byte (b : byte) (rest : list byte) (err : list string) (h : nat) :
  b <> newline ->
  si_getBool (mkWorld (b :: newline :: rest) err h)
  = if (byte_val b =? 89) || (byte_val b =? 121) then Some (true, mkWorld rest err h)
    else if (byte_val b =? 78) || (byte_val b =? 110) then Some (false, mkWorld rest err h)
    else si_getBool (mkWorld rest (err ++ [MSG_Y_OR_N]) h).
Proof.
  intros Hb.
  assert (E : si_getBool_body (mkWorld (b :: newline :: rest) err h)
              = Some (if (byte_val b =? 89) || (byte_val b =? 121) then Return true
                      else if (byte_val b =? 78) || (byte_val b =? 110) then Return false
                      else Continue,
                      if (byte_val b =? 89) || (byte_val b =? 121) then mkWorld rest err h
                      else if (byte_val b =? 78) || (byte_val b =? 110) then mkWorld rest err h
                      else mkWorld rest (err ++ [MSG_Y_OR_N]) h)).
  { unfold si_getBool_body. rewrite si_getChar_one_byte by exact Hb.
    rewrite byte_val_not_EOF.
    destruct ((byte_val b =? 89) || (byte_val b =? 121)); [reflexivity|].
    now destruct ((byte_val b =? 78) || (byte_val b =? 110)). }
  rewrite (si_getBool_decides _ _ _ E).
  destruct ((byte_val b =? 89) || (byte_val b =? 121)); [reflexivity|].
  now destruct ((byte_val b =? 78) || (byte_val b =? 110)).
Qed.

(** C8.  [si_getBool] returns [true] for the line "y" or "Y" and [false]
    for "n" or "N"; any other character that [si_getChar] hands over (a
    line of one other byte, or the newline of an empty line) is rejected
    with the "Enter 'y' or 'n'" diagnostic and the function reads on; at the
    end of the stream it writes a diagnostic and returns [false].  On every
    input the function comes to a result. *)
Theorem C8_si_getBool (b : byte) (rest : list byte) (err : list string) (h : nat) :
  b <> newline ->
  b <> "y"%byte -> b <> "Y"%byte -> b <> "n"%byte -> b <> "N"%byte ->
  si_getBool (mkWorld ("y"%byte :: newline :: rest) err h)
  = Some (true, mkWorld rest err h)
  /\ si_getBool (mkWorld ("Y"%byte :: newline :: rest) err h)
     = Some (true, mkWorld rest err h)
  /\ si_getBool (mkWorld ("n"%byte :: newline :: rest) err h)
     = Some (false, mkWorld rest err h)
  /\ si_getBool (mkWorld ("N"%byte :: newline :: rest) err h)
     = Some (false, mkWorld rest err h)
  /\ si_getBool (mkWorld (b :: newline :: rest) err h)
     = si_getBool (mkWorld rest (err ++ [MSG_Y_OR_N]) h)
  /\ si_getBool (mkWorld (newline :: rest) err h)
     = si_getBool (mkWorld rest (err ++ [MSG_Y_OR_N]) h)
  /\ si_getBool (mkWorld [] err h)
     = Some (false, mkWorld [] (err ++ [MSG_EOF_FALSE]) h)
  /\ (forall w : World, exists (r : bool) (w' : World), si_getBool w = Some (r, w')).
Proof.
  intros Hnl Hy HY Hn HN.
  split; [|split; [|split; [|split; [|split; [|split; [|split]]]]]];
    [| | | | | | |apply si_getBool_total].
  - rewrite si_getBool_one_byte by discriminate. reflexivity.
  - rewrite si_getBool_one_byte by discriminate. reflexivity.
  - rewrite si_getBool_one_byte by discriminate. reflexivity.
  - rewrite si_getBool_one_byte by discriminate. reflexivity.
  - rewrite si_getBool_one_byte by exact Hnl.
    assert (T : forall x : byte, b <> x -> (byte_val b =? byte_val x) = false).
    { intros x Hx. apply Z.eqb_neq. intros E. now apply Hx, byte_val_inj. }
    change 89 with (byte_val "Y"%byte). change 121 with (byte_val "y"%byte).
    change 78 with (byte_val "N"%byte). change 110 with (byte_val "n"%byte).
    now rewrite !T.
  - rewrite (si_getBool_decides _ (mkWorld rest (err ++ [MSG_Y_OR_N]) h) Continue);
      [reflexivity|].
    unfold si_getBool_body. now rewrite si_getChar_empty_line.
  - rewrite (si_getBool_decides _ (mkWorld [] (err ++ [MSG_EOF_FALSE]) h) (Return false));
      [reflexivity|].
    unfold si_getBool_body. now rewrite si_getChar_eof.
Qed.

Lemma C8_witness :
  si_getBool (mkWorld ("x"%byte :: newline :: bytes_of "y") [] 0)
  = si_getBool (mkWorld (bytes_of "y") [MSG_Y_OR_N] 0).
Proof.
  apply (C8_si_getBool "x"%byte (bytes_of "y") [] 0); discriminate.
Defined.

(** ** si_getCString and si_getString *)

Lemma drop_fresh (n : nat) : drop n (fresh n) = [].
Proof. apply drop_ge. unfold fresh. now rewrite length_replicate. Qed.

(** A line shorter than 127 bytes comes back as a block of its bytes and
    a terminator, when the allocator has that many bytes. *)
Lemma si_getCString_line (line rest : list byte) (err : list string) (h : nat) :
  no_newline line = true ->
  (length line < 127)%nat ->
  (length line + 1 <= h)%nat ->
  si_getCString (mkWorld (line ++ newline :: rest) err h)
  = Some (Ptr (chars line ++ [Char NUL]), mkWorld rest err (h - (length line + 1))).
Proof.
  intros Hnl Hlen Hh. unfold si_getCString.
  rewrite readByte_line by (try exact Hnl; unfold fresh; rewrite ?length_replicate; sizes).
  result_known.
  destruct (terminated line (fresh INPUT_BUFFER_SIZE)) as (tail & E & L).
  { unfold fresh. rewrite length_replicate. sizes. }
  rewrite E. unfold malloc. simpl heap_free.
  replace (length line + 1 <=? h)%nat with true by (symmetry; apply Nat.leb_le; lia).
  simpl. unfold memcpy. rewrite drop_fresh, app_nil_r.
  replace (chars line ++ Char NUL :: tail) with ((chars line ++ [Char NUL]) ++ tail)
    by now rewrite <- app_assoc.
  rewrite take_app_length'; [reflexivity|].
  rewrite length_app, length_chars. simpl. lia.
Qed.

(** A line shorter than 128 bytes comes back as a block of exactly its
    bytes with their number; for the empty line the block is one byte that
    is never written. *)
Lemma si_getString_line (line rest : list byte) (err : list string) (h : nat) :
  no_newline line = true ->
  (length line < 128)%nat ->
  ((if (length line =? 0)%nat then 1 else length line) <= h)%nat ->
  si_getString (mkWorld (line ++ newline :: rest) err h)
  = Some (mk_si_string
            (Ptr (chars line ++ if (length line =? 0)%nat then [Undef] else []))
            (length line),
          mkWorld rest err (h - (if (length line =? 0)%nat then 1 else length line))).
Proof.
  intros Hnl Hlen Hh. unfold si_getString.
  rewrite readByte_line by (try exact Hnl; unfold fresh; rewrite ?length_replicate; sizes).
  result_known. unfold malloc. simpl heap_free.
  match goal with |- context [(?n <=? h)%nat] =>
    replace (n <=? h)%nat with true by (symmetry; apply Nat.leb_le; lia)
  end.
  simpl. unfold memcpy.
  rewrite (take_app_length' (chars line)) by now rewrite length_chars.
  destruct line as [|b line]; [reflexivity|].
  simpl length. simpl Nat.eqb. cbv iota. now rewrite drop_fresh.
Qed.

(** C9.  The line "hi": [si_getString] returns a block holding exactly the
    two bytes 'h' and 'i', no terminator, with length 2; [si_getCString]
    returns a block of three bytes, 'h', 'i' and the terminator.  (The
    allocator must have 2, respectively 3, bytes left.) *)
Theorem C9_hi_round_trip (rest : list byte) (err : list string) (h : nat) :
  ((2 <= h)%nat ->
     si_getString (mkWorld (bytes_of "hi" ++ newline :: rest) err h)
     = Some (mk_si_string (Ptr [Char 104; Char 105]) 2, mkWorld rest err (h - 2)))
  /\ ((3 <= h)%nat ->
     si_getCString (mkWorld (bytes_of "hi" ++ newline :: rest) err h)
     = Some (Ptr [Char 104; Char 105; Char 0], mkWorld rest err (h - 3))).
Proof.
  split; intros Hh.
  - rewrite si_getString_line by (try reflexivity; simpl; lia). reflexivity.
  - rewrite si_getCString_line by (try reflexivity; simpl; lia). reflexivity.
Qed.

Lemma C9_witness :
  si_getString (mkWorld (bytes_of "hi" ++ newline :: []) [] 8)
  = Some (mk_si_string (Ptr [Char 104; Char 105]) 2, mkWorld [] [] 6)
  /\ si_getCString (mkWorld (bytes_of "hi" ++ newline :: []) [] 8)
     = Some (Ptr [Char 104; Char 105; Char 0], mkWorld [] [] 5).
Proof.
  split.
  - apply (C9_hi_round_trip [] [] 8). lia.
  - apply (C9_hi_round_trip [] [] 8). lia.
Defined.

(** C10.  When the allocator has a byte left, [si_getString] on an empty
    line returns a non-null block of one byte with length 0, while at the
    end of the stream it returns a null pointer with length 0: the two
    results differ in their [data]. *)
Theorem C10_empty_line_is_not_null (rest : list byte) (err : list string) (h : nat) :
  (1 <= h)%nat ->
  si_getString (mkWorld (newline :: rest) err h)
  = Some (mk_si_string (Ptr [Undef]) 0, mkWorld rest err (h - 1))
  /\ si_getString (mkWorld [] err h)
     = Some (mk_si_string NULL 0, mkWorld [] err h)
  /\ Ptr [Undef] <> NULL.
Proof.
  intros Hh. split; [|split].
  - change (newline :: rest) with ([] ++ newline :: rest).
    rewrite si_getString_line by (try reflexivity; simpl; lia). reflexivity.
  - reflexivity.
  - discriminate.
Qed.

Lemma C10_witness :
  si_getString (mkWorld (newline :: bytes_of "x") [] 1)
  = Some (mk_si_string (Ptr [Undef]) 0, mkWorld (bytes_of "x") [] 0)
  /\ si_getString (mkWorld [] [] 1) = Some (mk_si_string NULL 0, mkWorld [] [] 1)
  /\ Ptr [Undef] <> NULL.
Proof. apply (C10_empty_line_is_not_null (bytes_of "x") [] 1). lia. Defined.

(** ** The unsigned accessors and the minus sign *)

Lemma si_getUInt_decides (dm : data_model) (w w' : World) (k : ctl Z) :
  decision (si_getUInt_body dm (fresh INPUT_BUFFER_SIZE, w)) = Some (k, w') ->
  si_getUInt dm w
  = match k with
    | Return r => Some (r, w')
    | Continue => si_getUInt dm w'
    end.
Proof. apply retry_loop_decides, si_getUInt_body_uniform. Qed.

Lemma si_getULong_decides (dm : data_model) (w w' : World) (k : ctl Z) :
  decision (si_getULong_body dm (fresh INPUT_BUFFER_SIZE, w)) = Some (k, w') ->
  si_getULong dm w
  = match k with
    | Return r => Some (r, w')
    | Continue => si_getULong dm w'
    end.
Proof. apply retry_loop_decides, si_getULong_body_uniform. Qed.

Lemma si_getULongLong_decides (w w' : World) (k : ctl Z) :
  decision (si_getULongLong_body (fresh INPUT_BUFFER_SIZE, w)) = Some (k, w') ->
  si_getULongLong w
  = match k with
    | Return r => Some (r, w')
    | Continue => si_getULongLong w'
    end.
Proof. apply retry_loop_decides, si_getULongLong_body_uniform. Qed.

(** [si_getUInt] tests [buffer[0] == '-']: a line of fewer than 127 bytes
    that begins with a minus sign is rejected with the "can not be negative"
    diagnostic, whatever follows the sign, and the function reads on. *)
Lemma si_getUInt_rejects_minus (dm : data_model) (line rest : list byte)
    (err : list string) (h : nat) :
  no_newline line = true ->
  (length line < 126)%nat ->
  si_getUInt dm (mkWorld (("-"%byte :: line) ++ newline :: rest) err h)
  = si_getUInt dm (mkWorld rest (err ++ [MSG_NEGATIVE]) h).
Proof.
  intros Hnl Hlen.
  rewrite (si_getUInt_decides dm _ (mkWorld rest (err ++ [MSG_NEGATIVE]) h) Continue);
    [reflexivity|].
  unfold si_getUInt_body.
  rewrite readByte_line;
    try solve [unfold fresh; rewrite ?length_replicate; sizes].
  2: { unfold no_newline in *. simpl. exact Hnl. }
  result_known.
  destruct (terminated ("-"%byte :: line) (fresh INPUT_BUFFER_SIZE)) as (tail & E & L).
  { unfold fresh. rewrite length_replicate. sizes. }
  rewrite E.
  destruct (strtoul dm _) as [[value endptr] errno].
  rewrite load_terminated. reflexivity.
Qed.

(** C4.  [si_getULong] and [si_getULongLong] have no test for a minus
    sign: on the line "-5" they write no diagnostic and return the value
    [strtoul] gives by wrap-around, [ULONG_MAX - 4] (resp.
    [ULLONG_MAX - 4]), where [si_getUInt] rejects the line. *)
Theorem C4_unsigned_long_accepts_minus (dm : data_model) (rest : list byte)
    (err : list string) (h : nat) :
  si_getULong dm (mkWorld (bytes_of "-5" ++ newline :: rest) err h)
  = Some (ULONG_MAX dm - 4, mkWorld rest err h)
  /\ si_getULongLong (mkWorld (bytes_of "-5" ++ newline :: rest) err h)
     = Some (ULLONG_MAX - 4, mkWorld rest err h)
  /\ si_getUInt dm (mkWorld (bytes_of "-5" ++ newline :: rest) err h)
     = si_getUInt dm (mkWorld rest (err ++ [MSG_NEGATIVE]) h).
Proof.
  split; [|split].
  - rewrite (si_getULong_decides dm _ (mkWorld rest err h) (Return (ULONG_MAX dm - 4)));
      [reflexivity | destruct dm; vm_compute; reflexivity].
  - rewrite (si_getULongLong_decides _ (mkWorld rest err h) (Return (ULLONG_MAX - 4)));
      [reflexivity | vm_compute; reflexivity].
  - apply (si_getUInt_rejects_minus dm (bytes_of "5")); [reflexivity | simpl; lia].
Qed.

(** A minus sign after white space escapes the test of [si_getUInt]; the
    value [strtoul] wraps around is returned when it fits [unsigned int]. *)
Lemma si_getUInt_space_minus (rest : list byte) (err : list string) (h : nat) :
  si_getUInt LP64
    (mkWorld (bytes_of " -18446744073709551615" ++ newline :: rest) err h)
  = Some (1, mkWorld rest err h)
  /\ si_getUInt ILP32 (mkWorld (bytes_of " -5" ++ newline :: rest) err h)
     = Some (UINT_MAX - 4, mkWorld rest err h).
Proof.
  split.
  - rewrite (si_getUInt_decides LP64 _ (mkWorld rest err h) (Return 1));
      [reflexivity | vm_compute; reflexivity].
  - rewrite (si_getUInt_decides ILP32 _ (mkWorld rest err h) (Return (UINT_MAX - 4)));
      [reflexivity | vm_compute; reflexivity].
Qed.

(** ** si_getCharFiltered with an empty allow-set *)

(** C6.  With a non-null, empty [allowed], [si_getCharFiltered] writes
    "No allowed characters specified" and returns at once without reading:
    the input is untouched.  The value it returns is 1, not [EOF]. *)
Theorem C6_empty_allowed_returns_1 (w : World) :
  si_getCharFiltered (Some []) w
  = Some (Returns 1, mkWorld (stdin w) (stderr w ++ [MSG_NO_ALLOWED]) (heap_free w))
  /\ 1 <> EOF.
Proof. split; [reflexivity | discriminate]. Qed.

(** ** Every accessor returns

    On a finite input no retry loop runs for ever and no step is without
    meaning: each function gives a result. *)

Lemma si_getUInt_total (dm : data_model) (w : World) :
  exists (r : Z) (w' : World), si_getUInt dm w = Some (r, w').
Proof. apply retry_loop_total, si_getUInt_body_uniform. Qed.

Lemma si_getFloat_total (float : Type) (NAN : float)
    (strtof : list Z -> float * nat * Z) (isfinite : float -> bool) (w : World) :
  exists (r : float) (w' : World),
    si_getFloat float NAN strtof isfinite w = Some (r, w').
Proof. apply retry_loop_total, si_getFloat_body_uniform. Qed.

Lemma si_getLong_total (dm : data_model) (w : World) :
  exists (r : Z) (w' : World), si_getLong dm w = Some (r, w').
Proof. apply retry_loop_total, si_getLong_body_uniform. Qed.

Lemma si_getULong_total (dm : data_model) (w : World) :
  exists (r : Z) (w' : World), si_getULong dm w = Some (r, w').
Proof. apply retry_loop_total, si_getULong_body_uniform. Qed.

Lemma si_getLongLong_total (w : World) :
  exists (r : Z) (w' : World), si_getLongLong w = Some (r, w').
Proof. apply retry_loop_total, si_getLongLong_body_uniform. Qed.

Lemma si_getULongLong_total (w : World) :
  exists (r : Z) (w' : World), si_getULongLong w = Some (r, w').
Proof. apply retry_loop_total, si_getULongLong_body_uniform. Qed.

Lemma si_getCharFiltered_total (allowed : option (list Z)) (w : World) :
  exists (r : outcome Z) (w' : World), si_getCharFiltered allowed w = Some (r, w').
Proof.
  destruct allowed as [[|a allowed]|]; simpl; eauto.
  destruct (retry_loop_total CHAR_INPUT_BUFFER_SIZE _
              (si_getCharFiltered_body_uniform (a :: allowed)) w) as (r & w' & E).
  rewrite E. eauto.
Qed.

Lemma si_getCString_total (w : World) :
  exists (p : pointer) (w' : World), si_getCString w = Some (p, w').
Proof.
  unfold si_getCString.
  destruct (readByte_cases (INPUT_BUFFER_SIZE - 1) w)
    as (r & stored & w1 & Hread & _ & _); [sizes|].
  rewrite Hread by (unfold fresh; rewrite length_replicate; sizes).
  destruct (negb (r =? 0)); [eauto|].
  destruct (malloc (length stored + 1) w1) as [[str|] w2]; eauto.
Qed.

Lemma si_getString_total (w : World) :
  exists (str : si_string) (w' : World), si_getString w = Some (str, w').
Proof.
  unfold si_getString.
  destruct (readByte_cases INPUT_BUFFER_SIZE w)
    as (r & stored & w1 & Hread & _ & _); [sizes|].
  rewrite Hread by (unfold fresh; rewrite length_replicate; sizes).
  destruct (negb (r =? 0)); [eauto|].
  destruct (malloc _ w1) as [[str|] w2]; eauto.
Qed.

(** ** Overrun, accessor by accessor *)

(** A body that tests [if ( si_readByte( ... )) return sentinel;]. *)
Ltac overrun_returns get uniform_lemma body sentinel :=
  let line := fresh "line" in let rest := fresh "rest" in
  let err := fresh "err" in let h := fresh "h" in
  let Hnl := fresh "Hnl" in let Hlen := fresh "Hlen" in
  intros line rest err h Hnl Hlen; unfold get;
  rewrite (retry_loop_decides _ _ uniform_lemma _
             (mkWorld rest (err ++ [MSG_OVERRUN]) h) (Return sentinel));
  [reflexivity|];
  unfold body;
  rewrite readByte_overrun
    by (try exact Hnl; unfold fresh; rewrite ?length_replicate; sizes);
  reflexivity.

Lemma si_getInt_overrun (dm : data_model) :
  returns_on_overrun (si_getInt dm) 127 INT_MIN.
Proof. overrun_returns si_getInt (si_getInt_body_uniform dm) si_getInt_body INT_MIN. Qed.

Lemma si_getUInt_overrun (dm : data_model) :
  returns_on_overrun (si_getUInt dm) 127 UINT_MAX.
Proof. overrun_returns si_getUInt (si_getUInt_body_uniform dm) si_getUInt_body UINT_MAX. Qed.

Lemma si_getFloat_overrun (float : Type) (NAN : float)
    (strtof : list Z -> float * nat * Z) (isfinite : float -> bool) :
  returns_on_overrun (si_getFloat float NAN strtof isfinite) 127 NAN.
Proof.
  overrun_returns si_getFloat (si_getFloat_body_uniform float NAN strtof isfinite)
    si_getFloat_body NAN.
Qed.

Lemma si_getLong_overrun (dm : data_model) :
  returns_on_overrun (si_getLong dm) 127 (LONG_MIN dm).
Proof. overrun_returns si_getLong (si_getLong_body_uniform dm) si_getLong_body (LONG_MIN dm). Qed.

Lemma si_getULong_overrun (dm : data_model) :
  returns_on_overrun (si_getULong dm) 127 (ULONG_MAX dm).
Proof. overrun_returns si_getULong (si_getULong_body_uniform dm) si_getULong_body (ULONG_MAX dm). Qed.

Lemma si_getLongLong_overrun : returns_on_overrun si_getLongLong 127 LLONG_MIN.
Proof. overrun_returns si_getLongLong si_getLongLong_body_uniform si_getLongLong_body LLONG_MIN. Qed.

Lemma si_getULongLong_overrun : returns_on_overrun si_getULongLong 127 ULLONG_MAX.
Proof. overrun_returns si_getULongLong si_getULongLong_body_uniform si_getULongLong_body ULLONG_MAX. Qed.

Lemma si_getCString_overrun : returns_on_overrun si_getCString 127 NULL.
Proof.
  intros line rest err h Hnl Hlen. unfold si_getCString.
  rewrite readByte_overrun
    by (try exact Hnl; unfold fresh; rewrite ?length_replicate; sizes).
  reflexivity.
Qed.

Lemma si_getString_overrun : returns_on_overrun si_getString 128 (mk_si_string NULL 0).
Proof.
  intros line rest err h Hnl Hlen. unfold si_getString.
  rewrite readByte_overrun
    by (try exact Hnl; unfold fresh; rewrite ?length_replicate; sizes).
  reflexivity.
Qed.

Lemma si_getChar_overrun : retries_on_overrun si_getChar 3.
Proof.
  intros line rest err h Hnl Hlen.
  rewrite (si_getChar_decides _ (mkWorld rest (err ++ [MSG_OVERRUN]) h) Continue);
    [reflexivity|].
  unfold si_getChar_body.
  rewrite readByte_overrun
    by (try exact Hnl; unfold fresh; rewrite ?length_replicate; sizes).
  reflexivity.
Qed.

Lemma si_getCharFiltered_overrun (a : Z) (allowed : list Z) :
  retries_on_overrun (si_getCharFiltered (Some (a :: allowed))) 3.
Proof.
  intros line rest err h Hnl Hlen. unfold si_getCharFiltered.
  rewrite (retry_loop_decides _ _ (si_getCharFiltered_body_uniform (a :: allowed)) _
             (mkWorld rest (err ++ [MSG_OVERRUN]) h) Continue);
    [reflexivity|].
  unfold si_getCharFiltered_body.
  rewrite readByte_overrun
    by (try exact Hnl; unfold fresh; rewrite ?length_replicate; sizes).
  reflexivity.
Qed.

(** [si_getBool] sees the input only through [si_getChar]. *)
Lemma si_getBool_through_getChar (w1 w2 : World) :
  si_getChar w1 = si_getChar w2 -> si_getBool w1 = si_getBool w2.
Proof.
  intros E. rewrite !si_getBool_run.
  apply (run_same_body _ (fun _ => True) _ si_getBool_body_uniform);
    try exact I; try lia.
  unfold si_getBool_body. now rewrite E.
Qed.

Lemma si_getBool_overrun : retries_on_overrun si_getBool 3.
Proof.
  intros line rest err h Hnl Hlen.
  now apply si_getBool_through_getChar, si_getChar_overrun.
Qed.

(** The integer and floating-point accessors test
    [if ( si_readByte( ... )) return ...;] and so leave their retry loop on
    an overrun, with their failure value. *)
Lemma numeric_accessors_on_overrun (dm : data_model)
    (float : Type) (NANf : float) (strtof : list Z -> float * nat * Z)
    (isfinitef : float -> bool)
    (double : Type) (NANd : double) (strtod : list Z -> double * nat * Z)
    (isfinited : double -> bool) :
  returns_on_overrun (si_getInt dm) 127 INT_MIN
  /\ returns_on_overrun (si_getUInt dm) 127 UINT_MAX
  /\ returns_on_overrun (si_getFloat float NANf strtof isfinitef) 127 NANf
  /\ returns_on_overrun (si_getDouble double NANd strtod isfinited) 127 NANd
  /\ returns_on_overrun (si_getLong dm) 127 (LONG_MIN dm)
  /\ returns_on_overrun (si_getULong dm) 127 (ULONG_MAX dm)
  /\ returns_on_overrun si_getLongLong 127 LLONG_MIN
  /\ returns_on_overrun si_getULongLong 127 ULLONG_MAX.
Proof.
  repeat split.
  - apply si_getInt_overrun.
  - apply si_getUInt_overrun.
  - apply si_getFloat_overrun.
  - apply si_getFloat_overrun.
  - apply si_getLong_overrun.
  - apply si_getULong_overrun.
  - apply si_getLongLong_overrun.
  - apply si_getULongLong_overrun.
Qed.

(** C2, as the code has it.  When the line reader signals an overrun (it
    has then stored the start of the line, skipped the rest of it and
    written its diagnostic): [si_getChar], [si_getCharFiltered] (with a
    non-empty allow-set) and [si_getBool] call the line reader again, and go
    on as a call on the input after the line, which always comes to a
    result; [si_getCString] and [si_getString], which have no retry loop,
    return at once, the first [NULL] and the second a null pointer with
    length 0. *)
Theorem C2_overrun_by_accessor (a : Z) (allowed : list Z) :
  retries_on_overrun si_getChar 3
  /\ retries_on_overrun (si_getCharFiltered (Some (a :: allowed))) 3
  /\ retries_on_overrun si_getBool 3
  /\ returns_on_overrun si_getCString 127 NULL
  /\ returns_on_overrun si_getString 128 (mk_si_string NULL 0)
  /\ (forall w : World,
        (exists r w', si_getChar w = Some (r, w'))
        /\ (exists r w', si_getCharFiltered (Some (a :: allowed)) w = Some (r, w'))
        /\ (exists r w', si_getBool w = Some (r, w'))).
Proof.
  split; [|split; [|split; [|split; [|split]]]].
  - apply si_getChar_overrun.
  - apply si_getCharFiltered_overrun.
  - apply si_getBool_overrun.
  - apply si_getCString_overrun.
  - apply si_getString_overrun.
  - intros w. split; [|split].
    + apply si_getChar_total.
    + apply si_getCharFiltered_total.
    + apply si_getBool_total.
Qed.

Lemma C2_witness :
  si_getChar (mkWorld (bytes_of "abc" ++ newline :: bytes_of "z") [] 0)
  = si_getChar (mkWorld (bytes_of "z") [MSG_OVERRUN] 0)
  /\ si_getCString (mkWorld (replicate 127 "a"%byte ++ newline :: bytes_of "hi") [] 8)
     = Some (NULL, mkWorld (bytes_of "hi") [MSG_OVERRUN] 8).
Proof.
  destruct (C2_overrun_by_accessor 97 []) as (Hchar & _ & _ & Hstr & _).
  split.
  - apply (Hchar (bytes_of "abc") (bytes_of "z") [] 0%nat); [reflexivity | simpl; lia].
  - apply (Hstr (replicate 127 "a"%byte) (bytes_of "hi") [] 8%nat);
      [reflexivity | simpl; lia].
Defined.

(** C2 as the specification states it fails for [si_getCString]: after a
    line of 127 bytes it returns [NULL], where a retry would have returned
    the next line, "hi". *)
Lemma C2_counterexample :
  si_getCString
    (mkWorld (replicate 127 "a"%byte ++ newline :: bytes_of "hi" ++ [newline]) [] 8)
  = Some (NULL, mkWorld (bytes_of "hi" ++ [newline]) [MSG_OVERRUN] 8)
  /\ si_getCString (mkWorld (bytes_of "hi" ++ [newline]) [MSG_OVERRUN] 8)
     = Some (Ptr [Char 104; Char 105; Char 0], mkWorld [] [MSG_OVERRUN] 5)
  /\ ~ retries_on_overrun si_getCString 127.
Proof.
  assert (E1 : si_getCString
                 (mkWorld (replicate 127 "a"%byte ++ newline :: bytes_of "hi" ++ [newline])
                    [] 8)
               = Some (NULL, mkWorld (bytes_of "hi" ++ [newline]) [MSG_OVERRUN] 8))
    by (vm_compute; reflexivity).
  assert (E2 : si_getCString (mkWorld (bytes_of "hi" ++ [newline]) [MSG_OVERRUN] 8)
               = Some (Ptr [Char 104; Char 105; Char 0], mkWorld [] [MSG_OVERRUN] 5))
    by (vm_compute; reflexivity).
  split; [exact E1 | split; [exact E2|]].
  intros H.
  specialize (H (replicate 127 "a"%byte) (bytes_of "hi" ++ [newline]) [] 8%nat
                eq_refl ltac:(simpl; lia)).
  change ([] ++ [MSG_OVERRUN]) with [MSG_OVERRUN] in H.
  rewrite E1, E2 in H. discriminate H.
Qed.

(** The same input pattern on [si_getInt]: a line of 127 digits makes it
    return [INT_MIN]; the line "5" that follows is not read. *)
Lemma si_getInt_overrun_example :
  si_getInt LP64
    (mkWorld (replicate 127 "1"%byte ++ newline :: bytes_of "5" ++ [newline]) [] 0)
  = Some (INT_MIN, mkWorld (bytes_of "5" ++ [newline]) [MSG_OVERRUN] 0)
  /\ si_getInt LP64 (mkWorld (bytes_of "5" ++ [newline]) [MSG_OVERRUN] 0)
     = Some (5, mkWorld [] [MSG_OVERRUN] 0).
Proof. split; vm_compute; reflexivity. Qed.

(** * Further properties *)

(** ** The line reader on any input *)

Lemma first_line_no_newline (s : list byte) : no_newline (first_line s) = true.
Proof.
  induction s as [|b s IH]; [reflexivity|]. simpl.
  destruct (byte_val b =? NL) eqn:E; [reflexivity|].
  unfold no_newline in *. simpl. now rewrite E.
Qed.

Lemma first_line_of_line (line rest : list byte) :
  no_newline line = true -> first_line (line ++ newline :: rest) = line.
Proof.
  induction line as [|b line IH]; intros H; [reflexivity|].
  apply no_newline_cons in H as [Hb Hl]. simpl. rewrite Hb. now rewrite IH.
Qed.

Lemma first_line_of_last_line (line : list byte) :
  no_newline line = true -> first_line line = line.
Proof.
  induction line as [|b line IH]; intros H; [reflexivity|].
  apply no_newline_cons in H as [Hb Hl]. simpl. rewrite Hb. now rewrite IH.
Qed.

(** [si_readByte] does what [line_reader] says. *)
Lemma readByte_line_reader (c : nat) (buf : list memval) (w : World) :
  (1 <= c)%nat ->
  (c <= length buf)%nat ->
  si_readByte buf c w = line_reader c buf w.
Proof.
  intros Hc Hbuf. destruct w as [s err h]. unfold line_reader. simpl.
  destruct (stdin_shape s) as (line & Hnl & [-> | (rest & ->)]).
  - rewrite first_line_of_last_line, drain_eof by exact Hnl.
    destruct (Nat.leb_spec c (length line)) as [Hge | Hlt].
    + now apply readByte_last_overrun.
    + destruct line as [|b line]; [now apply readByte_eof|].
      apply readByte_last_line; try assumption. simpl in *. lia.
  - rewrite first_line_of_line, drain_line by exact Hnl.
    destruct (Nat.leb_spec c (length line)) as [Hge | Hlt].
    + now apply readByte_overrun.
    + rewrite readByte_line by assumption. now destruct line.
Qed.

(** X1.  For a capacity [c >= 1] and a buffer of at least [c] bytes,
    [si_readByte] is the line reader on every input: with [L] the bytes
    before the first newline of the input, it returns 1 when [L] has [c]
    bytes or more, [EOF] when the input is empty, 0 otherwise; it stores
    the first [min c |L|] bytes of [L] and reports their number; the
    diagnostic is written in the first case only. *)
Theorem X1_si_readByte_is_line_reader (c : nat) (buf : list memval) (w : World) :
  (1 <= c)%nat ->
  (c <= length buf)%nat ->
  si_readByte buf c w = line_reader c buf w.
Proof. apply readByte_line_reader. Qed.

Lemma X1_witness :
  si_readByte (fresh 4) 3 (mkWorld (bytes_of "hello" ++ newline :: bytes_of "x") [] 0)
  = line_reader 3 (fresh 4) (mkWorld (bytes_of "hello" ++ newline :: bytes_of "x") [] 0).
Proof.
  apply (X1_si_readByte_is_line_reader 3 (fresh 4)); [lia | simpl; lia].
Defined.

(** What a read does to the environment and to the buffer. *)
Lemma readByte_effect (c : nat) (buf buf' : list memval) (w w' : World)
    (r : Z) (outLen : option nat) :
  (1 <= c)%nat ->
  (c <= length buf)%nat ->
  si_readByte buf c w = (r, buf', outLen, w') ->
  exists stored : list byte,
    stored = take c (first_line (stdin w))
    /\ buf' = chars stored ++ drop (length stored) buf
    /\ outLen = Some (length stored)
    /\ stdin w' = drain (stdin w)
    /\ heap_free w' = heap_free w
    /\ ((r = EOF /\ stdin w = [] /\ w' = w)
        \/ (r = 0 /\ stdin w <> [] /\ (length (first_line (stdin w)) < c)%nat
            /\ stderr w' = stderr w)
        \/ (r = 1 /\ length stored = c /\ stderr w' = stderr w ++ [MSG_OVERRUN])).
Proof.
  intros Hc Hbuf. rewrite readByte_line_reader by assumption.
  unfold line_reader.
  destruct (Nat.leb_spec c (length (first_line (stdin w)))) as [Hge | Hlt].
  - intros [= <- <- <- <-]. exists (take c (first_line (stdin w))).
    rewrite length_take_le by exact Hge. simpl.
    repeat split; try reflexivity. right. right. now repeat split.
  - destruct (stdin w) as [|b s] eqn:Es.
    + intros [= <- <- <- <-]. exists []. simpl. rewrite Es.
      repeat split; try reflexivity; [now destruct c|]. left. now repeat split.
    + intros [= <- <- <- <-]. exists (first_line (b :: s)).
      rewrite (take_ge (first_line (b :: s))) by lia. simpl stdin. simpl heap_free.
      simpl stderr. repeat split; try reflexivity.
      right. left. now repeat split.
Qed.

(** X2.  Whatever the input, a read with capacity [c >= 1] takes exactly
    one line off it: what is left is the input after its first newline
    (nothing, when there is none).  The allocator is not used, and the
    diagnostics grow by the overrun message when 1 is returned and not at
    all otherwise. *)
Theorem X2_si_readByte_takes_one_line (c : nat) (buf buf' : list memval)
    (w w' : World) (r : Z) (outLen : option nat) :
  (1 <= c)%nat ->
  (c <= length buf)%nat ->
  si_readByte buf c w = (r, buf', outLen, w') ->
  stdin w' = drain (stdin w)
  /\ heap_free w' = heap_free w
  /\ stderr w' = stderr w ++ (if r =? 1 then [MSG_OVERRUN] else [])
  /\ (r = 0 \/ r = 1 \/ r = EOF).
Proof.
  intros Hc Hbuf E.
  destruct (readByte_effect c buf buf' w w' r outLen Hc Hbuf E)
    as (stored & _ & _ & _ & Hin & Hh & Hcase).
  split; [exact Hin | split; [exact Hh|]].
  destruct Hcase as [(-> & _ & ->) | [(-> & _ & _ & ->) | (-> & _ & ->)]];
    simpl; rewrite ?app_nil_r; auto.
Qed.

Lemma X2_witness :
  stdin (mkWorld (bytes_of "x") [MSG_OVERRUN] 0)
  = drain (stdin (mkWorld (bytes_of "hello" ++ newline :: bytes_of "x") [] 0))
  /\ heap_free (mkWorld (bytes_of "x") [MSG_OVERRUN] 0)
     = heap_free (mkWorld (bytes_of "hello" ++ newline :: bytes_of "x") [] 0)
  /\ stderr (mkWorld (bytes_of "x") [MSG_OVERRUN] 0)
     = stderr (mkWorld (bytes_of "hello" ++ newline :: bytes_of "x") [] 0)
       ++ (if 1 =? 1 then [MSG_OVERRUN] else [])
  /\ (1 = 0 \/ 1 = 1 \/ 1 = EOF).
Proof.
  apply (X2_si_readByte_takes_one_line 3 (fresh 4)
           [Char 104; Char 101; Char 108; Undef]
           (mkWorld (bytes_of "hello" ++ newline :: bytes_of "x") [] 0)
           (mkWorld (bytes_of "x") [MSG_OVERRUN] 0) 1 (Some 3%nat));
    [lia | simpl; lia | reflexivity].
Defined.

(** X3.  A read never writes outside the first [c] bytes of the buffer and
    never more than it reports: the buffer keeps its length, the cells from
    the reported length on are untouched, the cells below it hold input
    bytes, none of them a newline.  The reported length is at most [c], and
    below [c] when 0 is returned: the terminator that the callers write at
    [buffer[len]] fits a buffer of [c + 1] bytes in every case. *)
Theorem X3_si_readByte_stays_in_bounds (c : nat) (buf buf' : list memval)
    (w w' : World) (r : Z) (outLen : option nat) :
  (1 <= c)%nat ->
  (c <= length buf)%nat ->
  si_readByte buf c w = (r, buf', outLen, w') ->
  exists (n : nat) (stored : list byte),
    outLen = Some n
    /\ (n <= c)%nat
    /\ (r = 0 -> (n < c)%nat)
    /\ length buf' = length buf
    /\ drop n buf' = drop n buf
    /\ take n buf' = chars stored
    /\ length stored = n
    /\ no_newline stored = true.
Proof.
  intros Hc Hbuf E.
  destruct (readByte_effect c buf buf' w w' r outLen Hc Hbuf E)
    as (stored & Hst & -> & -> & _ & _ & Hcase).
  assert (Hn : (length stored <= c)%nat).
  { rewrite Hst, length_take. lia. }
  exists (length stored), stored. repeat split; try assumption.
  - intros ->. destruct Hcase as [(Hr & _) | [(_ & _ & Hlt & _) | (Hr & _)]];
      try discriminate Hr.
    rewrite Hst, length_take. lia.
  - rewrite length_app, length_chars, length_drop. lia.
  - rewrite <- (length_chars stored) at 1. now rewrite drop_app_length.
  - rewrite <- (length_chars stored) at 1. now rewrite take_app_length.
  - rewrite Hst. apply no_newline_take, first_line_no_newline.
Qed.

Lemma X3_witness :
  exists (n : nat) (stored : list byte),
    Some 3%nat = Some n
    /\ (n <= 3)%nat
    /\ (1 = 0 -> (n < 3)%nat)
    /\ length [Char 104; Char 101; Char 108; Undef] = length (fresh 4)
    /\ drop n [Char 104; Char 101; Char 108; Undef] = drop n (fresh 4)
    /\ take n [Char 104; Char 101; Char 108; Undef] = chars stored
    /\ length stored = n
    /\ no_newline stored = true.
Proof.
  apply (X3_si_readByte_stays_in_bounds 3 (fresh 4)
           [Char 104; Char 101; Char 108; Undef]
           (mkWorld (bytes_of "hello") [] 0)
           (mkWorld [] [MSG_OVERRUN] 0) 1 (Some 3%nat));
    [lia | simpl; lia | reflexivity].
Defined.

(** X4.  [si_drainStdin] leaves the input just after its first newline,
    or empty when it has none, and touches nothing else: the input it
    leaves is a suffix of the input it found, the part taken off holds at
    most one newline, at its end. *)
Theorem X4_si_drainStdin_resynchronises (w : World) :
  stderr (si_drainStdin w) = stderr w
  /\ heap_free (si_drainStdin w) = heap_free w
  /\ ((stdin w = first_line (stdin w) /\ stdin (si_drainStdin w) = [])
      \/ stdin w = first_line (stdin w) ++ newline :: stdin (si_drainStdin w))
  /\ no_newline (first_line (stdin w)) = true.
Proof.
  split; [reflexivity | split; [reflexivity | split]].
  - simpl. destruct (stdin_shape (stdin w)) as (line & Hnl & [-> | (rest & ->)]).
    + left. now rewrite first_line_of_last_line, drain_eof.
    + right. now rewrite first_line_of_line, drain_line.
  - apply first_line_no_newline.
Qed.

(** ** What holds of the result of a retry loop *)

Section LoopInvariants.

Context {St R : Type}.
Variable world_of : St -> World.
Variable inv : St -> Prop.
Variable body : St -> option (ctl R * St).
Hypothesis Hbody : uniform world_of inv body.

(** [Q] holds of every [return], [T] of every iteration that goes round
    again, and [T] followed by [Q] gives [Q]: then [Q] holds of the loop. *)
Lemma while_1_invariant (Q : World -> R -> World -> Prop)
    (T : World -> World -> Prop) :
  (forall (s s' : St) (r : R),
      inv s -> body s = Some (Return r, s') -> Q (world_of s) r (world_of s')) ->
  (forall s s' : St,
      inv s -> body s = Some (Continue, s') -> T (world_of s) (world_of s')) ->
  (forall (w w1 w' : World) (r : R), T w w1 -> Q w1 r w' -> Q w r w') ->
  forall (fuel : nat) (s s' : St) (r : R),
    inv s -> while_1 body fuel s = Some (r, s') ->
    Q (world_of s) r (world_of s').
Proof.
  intros Hret Hcont Hcomp.
  induction fuel as [|fuel IH]; intros s s' r Hs E; [discriminate|].
  simpl in E.
  destruct (Hbody s s Hs Hs eq_refl) as (k & s1 & _ & E1 & _ & I1 & _ & _ & _).
  rewrite E1 in E. destruct k as [r1|].
  - injection E as <- <-. now apply Hret.
  - apply Hcomp with (world_of s1); [now apply Hcont | now apply IH].
Qed.

End LoopInvariants.

Lemma retry_loop_invariant {R : Type} (size : nat)
    (body : frame -> option (ctl R * frame))
    (Q : World -> R -> World -> Prop) (T : World -> World -> Prop) :
  uniform snd (sized size) body ->
  (forall (s s' : frame) (r : R),
      sized size s -> body s = Some (Return r, s') -> Q (snd s) r (snd s')) ->
  (forall s s' : frame,
      sized size s -> body s = Some (Continue, s') -> T (snd s) (snd s')) ->
  (forall (w w1 w' : World) (r : R), T w w1 -> Q w1 r w' -> Q w r w') ->
  forall (w w' : World) (r : R),
    retry_loop size body w = Some (r, w') -> Q w r w'.
Proof.
  intros Hu Hret Hcont Hcomp w w' r E. unfold retry_loop in E.
  destruct (while_1 body _ _) as [[r1 [b1 w1]]|] eqn:W; [|discriminate].
  injection E as <- <-.
  apply (while_1_invariant snd (sized size) body Hu Q T Hret Hcont Hcomp _ _ _ _
           (sized_fresh size w) W).
Qed.

(** ** Whole lines *)

Lemma took_lines_one (w w' : World) (msgs : list string) :
  stdin w' = drain (stdin w) ->
  stderr w' = stderr w ++ msgs ->
  heap_free w' = heap_free w ->
  took_lines w w'.
Proof. intros H1 H2 H3. exists 1%nat, msgs. now repeat split. Qed.

Lemma took_lines_trans (w w1 w2 : World) :
  took_lines w w1 -> took_lines w1 w2 -> took_lines w w2.
Proof.
  intros (k1 & m1 & Hk1 & S1 & E1 & H1) (k2 & m2 & Hk2 & S2 & E2 & H2).
  exists (k2 + k1)%nat, (m1 ++ m2). repeat split.
  - lia.
  - unfold after_lines in *. now rewrite Nat.iter_add, <- S1.
  - now rewrite E2, E1, app_assoc.
  - congruence.
Qed.

Lemma took_lines_msg (w w' : World) (msg : string) :
  took_lines w w' -> took_lines w (fputs_stderr msg w').
Proof.
  intros (k & m & Hk & S1 & E1 & H1). exists k, (m ++ [msg]).
  simpl. repeat split; try assumption. now rewrite E1, app_assoc.
Qed.

(** A read with the capacities of this file takes one line. *)
Lemma readByte_took_line (c : nat) (buf buf' : list memval) (w w' : World)
    (r : Z) (outLen : option nat) :
  (1 <= c)%nat ->
  (c <= length buf)%nat ->
  si_readByte buf c w = (r, buf', outLen, w') ->
  took_lines w w'.
Proof.
  intros Hc Hbuf E.
  destruct (readByte_effect c buf buf' w w' r outLen Hc Hbuf E)
    as (stored & _ & _ & _ & Hin & Hh & Hcase).
  destruct Hcase as [(_ & _ & ->) | [(_ & _ & _ & He) | (_ & _ & He)]].
  - apply took_lines_one with []; try reflexivity; [exact Hin|].
    now rewrite app_nil_r.
  - apply took_lines_one with []; try assumption. now rewrite app_nil_r.
  - now apply took_lines_one with [MSG_OVERRUN].
Qed.

(** The branches of a body, one by one. *)
Ltac crack E :=
  cbv beta iota zeta in E;
  repeat (match type of E with
          | context [match ?x with _ => _ end] => destruct x eqn:?
          end; cbv beta iota zeta in E);
  try discriminate E.

(** Every iteration of a body built on one read takes one line. *)
Ltac body_takes_line size body :=
  let E := fresh "E" in let R := fresh "R" in let Hs := fresh "Hs" in
  intros [?b ?w] [?b' ?w'] ?k Hs E; unfold sized in Hs; simpl in Hs |- *;
  unfold body in E;
  match type of E with
  | context [si_readByte ?b size ?w] =>
      destruct (si_readByte b size w) as [[[?r ?b1] ?o] ?w1] eqn:R;
      pose proof (readByte_took_line size b _ w _ _ _ ltac:(sizes) ltac:(sizes) R)
  end;
  crack E; injection E as <- <- <-;
  unfold si_printError; auto using took_lines_msg.

Lemma si_getInt_body_line (dm : data_model) (s s' : frame) (k : ctl Z) :
  sized INPUT_BUFFER_SIZE s -> si_getInt_body dm s = Some (k, s') ->
  took_lines (snd s) (snd s').
Proof. revert s s' k. body_takes_line (INPUT_BUFFER_SIZE - 1)%nat si_getInt_body. Qed.

Lemma si_getUInt_body_line (dm : data_model) (s s' : frame) (k : ctl Z) :
  sized INPUT_BUFFER_SIZE s -> si_getUInt_body dm s = Some (k, s') ->
  took_lines (snd s) (snd s').
Proof. revert s s' k. body_takes_line (INPUT_BUFFER_SIZE - 1)%nat si_getUInt_body. Qed.

Lemma si_getFloat_body_line (float : Type) (NAN : float)
    (strtof : list Z -> float * nat * Z) (isfinite : float -> bool)
    (s s' : frame) (k : ctl float) :
  sized INPUT_BUFFER_SIZE s ->
  si_getFloat_body float NAN strtof isfinite s = Some (k, s') ->
  took_lines (snd s) (snd s').
Proof. revert s s' k. body_takes_line (INPUT_BUFFER_SIZE - 1)%nat si_getFloat_body. Qed.

Lemma si_getLong_body_line (dm : data_model) (s s' : frame) (k : ctl Z) :
  sized INPUT_BUFFER_SIZE s -> si_getLong_body dm s = Some (k, s') ->
  took_lines (snd s) (snd s').
Proof. revert s s' k. body_takes_line (INPUT_BUFFER_SIZE - 1)%nat si_getLong_body. Qed.

Lemma si_getULong_body_line (dm : data_model) (s s' : frame) (k : ctl Z) :
  sized INPUT_BUFFER_SIZE s -> si_getULong_body dm s = Some (k, s') ->
  took_lines (snd s) (snd s').
Proof. revert s s' k. body_takes_line (INPUT_BUFFER_SIZE - 1)%nat si_getULong_body. Qed.

Lemma si_getLongLong_body_line (s s' : frame) (k : ctl Z) :
  sized INPUT_BUFFER_SIZE s -> si_getLongLong_body s = Some (k, s') ->
  took_lines (snd s) (snd s').
Proof. revert s s' k. body_takes_line (INPUT_BUFFER_SIZE - 1)%nat si_getLongLong_body. Qed.

Lemma si_getULongLong_body_line (s s' : frame) (k : ctl Z) :
  sized INPUT_BUFFER_SIZE s -> si_getULongLong_body s = Some (k, s') ->
  took_lines (snd s) (snd s').
Proof. revert s s' k. body_takes_line (INPUT_BUFFER_SIZE - 1)%nat si_getULongLong_body. Qed.

Lemma si_getChar_body_line (s s' : frame) (k : ctl Z) :
  sized CHAR_INPUT_BUFFER_SIZE s -> si_getChar_body s = Some (k, s') ->
  took_lines (snd s) (snd s').
Proof. revert s s' k. body_takes_line (CHAR_INPUT_BUFFER_SIZE - 1)%nat si_getChar_body. Qed.

Lemma si_getCharFiltered_body_line (allowed : list Z) (s s' : frame) (k : ctl Z) :
  sized CHAR_INPUT_BUFFER_SIZE s -> si_getCharFiltered_body allowed s = Some (k, s') ->
  took_lines (snd s) (snd s').
Proof.
  revert s s' k.
  body_takes_line (CHAR_INPUT_BUFFER_SIZE - 1)%nat si_getCharFiltered_body.
Qed.

(** A retry loop whose iterations take one line each takes whole lines. *)
Lemma ensures_intro {A : Type} (get : World -> option (A * World))
    (Q : World -> A -> World -> Prop) :
  (forall w : World, exists (r : A) (w' : World), get w = Some (r, w')) ->
  results_satisfy get Q ->
  ensures get Q.
Proof.
  intros Htotal HQ w. destruct (Htotal w) as (r & w' & E).
  exists r, w'. split; [exact E | now apply HQ].
Qed.

Lemma retry_loop_lines_only {R : Type} (size : nat)
    (body : frame -> option (ctl R * frame)) :
  uniform snd (sized size) body ->
  (forall (s s' : frame) (k : ctl R),
      sized size s -> body s = Some (k, s') -> took_lines (snd s) (snd s')) ->
  results_satisfy (retry_loop size body) (fun w _ w' => took_lines w w').
Proof.
  intros Hu Hline w w' r E.
  apply (retry_loop_invariant size body (fun w _ w' => took_lines w w') took_lines Hu)
    with r; try assumption.
  - intros s s' r0 Hs Eb. now apply Hline with (Return r0).
  - intros s s' Hs Eb. now apply Hline with Continue.
  - intros w0 w1 w2 _. apply took_lines_trans.
Qed.

Lemma si_getChar_lines_only :
  results_satisfy si_getChar (fun w _ w' => took_lines w w').
Proof.
  apply retry_loop_lines_only;
    [apply si_getChar_body_uniform | apply si_getChar_body_line].
Qed.

Lemma si_getBool_lines_only :
  results_satisfy si_getBool (fun w _ w' => took_lines w w').
Proof.
  intros w w' r E. unfold si_getBool in E.
  apply (while_1_invariant (fun w : World => w) (fun _ => True) si_getBool_body
           si_getBool_body_uniform (fun w _ w' => took_lines w w') took_lines)
    with (S (length (stdin w))) r; try exact I; try assumption.
  - intros s s' r0 _ Eb. unfold si_getBool_body in Eb.
    destruct (si_getChar s) as [[c w1]|] eqn:Ec; [|discriminate].
    apply si_getChar_lines_only in Ec.
    crack Eb; injection Eb as <- <-; unfold si_printError;
      auto using took_lines_msg.
  - intros s s' _ Eb. unfold si_getBool_body in Eb.
    destruct (si_getChar s) as [[c w1]|] eqn:Ec; [|discriminate].
    apply si_getChar_lines_only in Ec.
    crack Eb; injection Eb as <-; unfold si_printError;
      auto using took_lines_msg.
  - intros w0 w1 w2 _. apply took_lines_trans.
Qed.

(** X5.  Every accessor built on a retry loop returns, on every input,
    and takes whole lines only: the input left is the input it found with
    its first [k] lines removed, for some [k >= 1] (one line per attempt;
    at the end of the stream the empty rest counts as one); the
    diagnostics it found are still there, with its own after them; the
    allocator is untouched. *)
Theorem X5_accessors_take_whole_lines (dm : data_model) (a : Z) (allowed : list Z)
    (float : Type) (NANf : float) (strtof : list Z -> float * nat * Z)
    (isfinitef : float -> bool) :
  consumes_lines (si_getInt dm)
  /\ consumes_lines (si_getUInt dm)
  /\ consumes_lines (si_getFloat float NANf strtof isfinitef)
  /\ consumes_lines (si_getDouble float NANf strtof isfinitef)
  /\ consumes_lines (si_getLong dm)
  /\ consumes_lines (si_getULong dm)
  /\ consumes_lines si_getLongLong
  /\ consumes_lines si_getULongLong
  /\ consumes_lines si_getChar
  /\ consumes_lines (si_getCharFiltered (Some (a :: allowed)))
  /\ consumes_lines si_getBool.
Proof.
  repeat split; apply ensures_intro.
  - apply si_getInt_total.
  - apply retry_loop_lines_only;
      [apply si_getInt_body_uniform | apply si_getInt_body_line].
  - apply si_getUInt_total.
  - apply retry_loop_lines_only;
      [apply si_getUInt_body_uniform | apply si_getUInt_body_line].
  - apply si_getFloat_total.
  - apply retry_loop_lines_only;
      [apply si_getFloat_body_uniform | apply si_getFloat_body_line].
  - apply si_getFloat_total.
  - apply retry_loop_lines_only;
      [apply si_getFloat_body_uniform | apply si_getFloat_body_line].
  - apply si_getLong_total.
  - apply retry_loop_lines_only;
      [apply si_getLong_body_uniform | apply si_getLong_body_line].
  - apply si_getULong_total.
  - apply retry_loop_lines_only;
      [apply si_getULong_body_uniform | apply si_getULong_body_line].
  - apply si_getLongLong_total.
  - apply retry_loop_lines_only;
      [apply si_getLongLong_body_uniform | apply si_getLongLong_body_line].
  - apply si_getULongLong_total.
  - apply retry_loop_lines_only;
      [apply si_getULongLong_body_uniform | apply si_getULongLong_body_line].
  - apply si_getChar_total.
  - apply si_getChar_lines_only.
  - apply si_getCharFiltered_total.
  - intros w w' r E. unfold si_getCharFiltered in E.
    destruct (retry_loop _ _ w) as [[c w1]|] eqn:El; [|discriminate].
    injection E as _ <-.
    apply (retry_loop_lines_only CHAR_INPUT_BUFFER_SIZE _
             (si_getCharFiltered_body_uniform (a :: allowed))
             (si_getCharFiltered_body_line (a :: allowed)) _ _ _ El).
  - apply si_getBool_total.
  - apply si_getBool_lines_only.
Qed.

(** ** The string accessors on any input *)

Lemma length_fresh (n : nat) : length (fresh n) = n.
Proof. apply length_replicate. Qed.

(** X6.  [si_getCString] on any input, with [L] the bytes before the
    first newline.  It returns [NULL] in three cases: [L] has 127 bytes or
    more (overrun diagnostic); the input is empty (no diagnostic); the
    allocator lacks the [|L| + 1] bytes asked for ("Memory allocation
    failed").  Otherwise it returns a block of [|L| + 1] bytes: the bytes of
    [L], then the terminator.  In every case but the empty input the line
    and its newline are taken off the input, also when [NULL] is returned. *)
Theorem X6_si_getCString_cases (w : World) :
  let L := first_line (stdin w) in
  ((127 <= length L)%nat ->
     si_getCString w
     = Some (NULL, mkWorld (drain (stdin w)) (stderr w ++ [MSG_OVERRUN]) (heap_free w)))
  /\ (stdin w = [] -> si_getCString w = Some (NULL, w))
  /\ (stdin w <> [] -> (length L < 127)%nat -> (heap_free w < length L + 1)%nat ->
      si_getCString w
      = Some (NULL, mkWorld (drain (stdin w)) (stderr w ++ [MSG_ALLOC]) (heap_free w)))
  /\ (stdin w <> [] -> (length L < 127)%nat -> (length L + 1 <= heap_free w)%nat ->
      si_getCString w
      = Some (Ptr (chars L ++ [Char NUL]),
              mkWorld (drain (stdin w)) (stderr w) (heap_free w - (length L + 1)))).
Proof.
  intros L. unfold si_getCString.
  rewrite readByte_line_reader by (rewrite ?length_fresh; sizes).
  unfold line_reader. fold L.
  change (INPUT_BUFFER_SIZE - 1)%nat with 127%nat.
  split; [|split; [|split]].
  - intros H. now replace (127 <=? length L)%nat with true
      by (symmetry; apply Nat.leb_le; lia).
  - intros H. subst L. rewrite H. reflexivity.
  - intros Hs Hlen Hh.
    replace (127 <=? length L)%nat with false by (symmetry; apply Nat.leb_gt; lia).
    destruct (stdin w) as [|b s] eqn:Es; [congruence|].
    result_known. unfold malloc. simpl heap_free.
    now replace (length L + 1 <=? heap_free w)%nat with false
      by (symmetry; apply Nat.leb_gt; lia).
  - intros Hs Hlen Hh.
    replace (127 <=? length L)%nat with false by (symmetry; apply Nat.leb_gt; lia).
    destruct (stdin w) as [|b s] eqn:Es; [congruence|].
    result_known.
    destruct (terminated L (fresh INPUT_BUFFER_SIZE)) as (tail & E & _).
    { rewrite length_fresh. sizes. }
    rewrite E. unfold malloc. simpl heap_free.
    replace (length L + 1 <=? heap_free w)%nat with true
      by (symmetry; apply Nat.leb_le; lia).
    simpl. unfold memcpy. rewrite drop_fresh, app_nil_r.
    replace (chars L ++ Char NUL :: tail) with ((chars L ++ [Char NUL]) ++ tail)
      by now rewrite <- app_assoc.
    rewrite take_app_length'; [reflexivity|].
    rewrite length_app, length_chars. simpl. lia.
Qed.

Lemma X6_witness :
  si_getCString (mkWorld (bytes_of "hi" ++ newline :: bytes_of "x") [] 2)
  = Some (NULL, mkWorld (bytes_of "x") [MSG_ALLOC] 2).
Proof.
  apply (X6_si_getCString_cases (mkWorld (bytes_of "hi" ++ newline :: bytes_of "x") [] 2));
    [discriminate | simpl; lia | simpl; lia].
Defined.

(** X7.  [si_getString] on any input, with [L] the bytes before the first
    newline.  It returns the null pointer with length 0 when [L] has 128
    bytes or more, when the input is empty, and when the allocator lacks
    the [max 1 |L|] bytes asked for.  Otherwise it returns the length [|L|]
    and a block that holds the bytes of [L] and nothing after them, except
    for the empty line, whose block is one byte that was never written.  In
    every case but the empty input the line is taken off the input. *)
Theorem X7_si_getString_cases (w : World) :
  let L := first_line (stdin w) in
  let size := if (length L =? 0)%nat then 1%nat else length L in
  ((128 <= length L)%nat ->
     si_getString w
     = Some (mk_si_string NULL 0,
             mkWorld (drain (stdin w)) (stderr w ++ [MSG_OVERRUN]) (heap_free w)))
  /\ (stdin w = [] -> si_getString w = Some (mk_si_string NULL 0, w))
  /\ (stdin w <> [] -> (length L < 128)%nat -> (heap_free w < size)%nat ->
      si_getString w
      = Some (mk_si_string NULL 0,
              mkWorld (drain (stdin w)) (stderr w ++ [MSG_ALLOC]) (heap_free w)))
  /\ (stdin w <> [] -> (length L < 128)%nat -> (size <= heap_free w)%nat ->
      si_getString w
      = Some (mk_si_string
                (Ptr (chars L ++ if (length L =? 0)%nat then [Undef] else []))
                (length L),
              mkWorld (drain (stdin w)) (stderr w) (heap_free w - size))).
Proof.
  intros L size. unfold si_getString.
  rewrite readByte_line_reader by (rewrite ?length_fresh; sizes).
  unfold line_reader. fold L.
  change INPUT_BUFFER_SIZE with 128%nat.
  split; [|split; [|split]].
  - intros H. now replace (128 <=? length L)%nat with true
      by (symmetry; apply Nat.leb_le; lia).
  - intros H. subst L. rewrite H. reflexivity.
  - intros Hs Hlen Hh.
    replace (128 <=? length L)%nat with false by (symmetry; apply Nat.leb_gt; lia).
    destruct (stdin w) as [|b s] eqn:Es; [congruence|].
    result_known. unfold malloc. simpl heap_free. fold size.
    now replace (size <=? heap_free w)%nat with false
      by (symmetry; apply Nat.leb_gt; lia).
  - intros Hs Hlen Hh.
    replace (128 <=? length L)%nat with false by (symmetry; apply Nat.leb_gt; lia).
    destruct (stdin w) as [|b s] eqn:Es; [congruence|].
    result_known. unfold malloc. simpl heap_free. fold size.
    replace (size <=? heap_free w)%nat with true
      by (symmetry; apply Nat.leb_le; lia).
    simpl. unfold memcpy.
    rewrite (take_app_length' (chars L)) by now rewrite length_chars.
    subst size. destruct L as [|x L]; [reflexivity|].
    simpl length. simpl Nat.eqb. cbv iota. now rewrite drop_fresh.
Qed.

Lemma X7_witness :
  si_getString (mkWorld (bytes_of "hi" ++ newline :: bytes_of "x") [] 1)
  = Some (mk_si_string NULL 0, mkWorld (bytes_of "x") [MSG_ALLOC] 1).
Proof.
  apply (X7_si_getString_cases (mkWorld (bytes_of "hi" ++ newline :: bytes_of "x") [] 1));
    [discriminate | simpl; lia | simpl; lia].
Defined.

(** ** The end of the stream *)

(** X8.  At the end of the stream the numeric accessors, [si_getChar],
    [si_getCharFiltered] with a non-empty allow-set, [si_getCString] and
    [si_getString] return at once, with the failure value of their type,
    and leave the environment exactly as they found it (no diagnostic), so
    that calling them again gives the same: [INT_MIN], [UINT_MAX], [NAN],
    [LONG_MIN], [ULONG_MAX], [LLONG_MIN], [ULLONG_MAX], [EOF] for the two
    character accessors, [NULL] and the null [si_string].  Three calls
    write a diagnostic there: [si_getBool], at each call, which returns
    [false]; [si_getCharFiltered] with an empty allow-set, which returns 1
    and not [EOF]; [si_getCharFiltered] with [NULL], which exits.  Neither
    of the last two reads the input. *)
Theorem X8_accessors_at_end_of_stream (dm : data_model) (a : Z) (allowed : list Z)
    (float : Type) (NANf : float) (strtof : list Z -> float * nat * Z)
    (isfinitef : float -> bool) (err : list string) (h : nat) :
  let w := mkWorld [] err h in
  si_getInt dm w = Some (INT_MIN, w)
  /\ si_getUInt dm w = Some (UINT_MAX, w)
  /\ si_getFloat float NANf strtof isfinitef w = Some (NANf, w)
  /\ si_getDouble float NANf strtof isfinitef w = Some (NANf, w)
  /\ si_getLong dm w = Some (LONG_MIN dm, w)
  /\ si_getULong dm w = Some (ULONG_MAX dm, w)
  /\ si_getLongLong w = Some (LLONG_MIN, w)
  /\ si_getULongLong w = Some (ULLONG_MAX, w)
  /\ si_getChar w = Some (EOF, w)
  /\ si_getCharFiltered (Some (a :: allowed)) w = Some (Returns EOF, w)
  /\ si_getCString w = Some (NULL, w)
  /\ si_getString w = Some (mk_si_string NULL 0, w)
  /\ si_getBool w = Some (false, mkWorld [] (err ++ [MSG_EOF_FALSE]) h)
  /\ si_getBool (mkWorld [] (err ++ [MSG_EOF_FALSE]) h)
     = Some (false, mkWorld [] ((err ++ [MSG_EOF_FALSE]) ++ [MSG_EOF_FALSE]) h)
  /\ si_getCharFiltered (Some []) w
     = Some (Returns 1, mkWorld [] (err ++ [MSG_NO_ALLOWED]) h)
  /\ si_getCharFiltered None w
     = Some (Exits EXIT_FAILURE, mkWorld [] (err ++ [MSG_NULL_ALLOWED]) h).
Proof.
  intros w. subst w.
  split; [|split; [|split; [|split; [|split; [|split; [|split; [|split;
    [|split; [|split; [|split; [|split; [|split; [|split; [|split]]]]]]]]]]]]]].
  - now rewrite (si_getInt_decides dm _ (mkWorld [] err h) (Return INT_MIN)).
  - now rewrite (si_getUInt_decides dm _ (mkWorld [] err h) (Return UINT_MAX)).
  - unfold si_getFloat.
    now rewrite (retry_loop_decides _ _ (si_getFloat_body_uniform _ NANf strtof isfinitef)
                   _ (mkWorld [] err h) (Return NANf)).
  - unfold si_getDouble, si_getFloat.
    now rewrite (retry_loop_decides _ _ (si_getFloat_body_uniform _ NANf strtof isfinitef)
                   _ (mkWorld [] err h) (Return NANf)).
  - unfold si_getLong.
    now rewrite (retry_loop_decides _ _ (si_getLong_body_uniform dm)
                   _ (mkWorld [] err h) (Return (LONG_MIN dm))).
  - now rewrite (si_getULong_decides dm _ (mkWorld [] err h) (Return (ULONG_MAX dm))).
  - unfold si_getLongLong.
    now rewrite (retry_loop_decides _ _ si_getLongLong_body_uniform
                   _ (mkWorld [] err h) (Return LLONG_MIN)).
  - now rewrite (si_getULongLong_decides _ (mkWorld [] err h) (Return ULLONG_MAX)).
  - apply si_getChar_eof.
  - unfold si_getCharFiltered.
    now rewrite (retry_loop_decides _ _ (si_getCharFiltered_body_uniform (a :: allowed))
                   _ (mkWorld [] err h) (Return EOF)).
  - reflexivity.
  - reflexivity.
  - rewrite (si_getBool_decides _ (mkWorld [] (err ++ [MSG_EOF_FALSE]) h) (Return false));
      [reflexivity|].
    unfold si_getBool_body. now rewrite si_getChar_eof.
  - rewrite (si_getBool_decides _
               (mkWorld [] ((err ++ [MSG_EOF_FALSE]) ++ [MSG_EOF_FALSE]) h) (Return false));
      [reflexivity|].
    unfold si_getBool_body. now rewrite si_getChar_eof.
  - reflexivity.
  - reflexivity.
Qed.

(** ** Numerals through the conversions *)

Lemma digit_byte (b : byte) :
  isdigit (byte_val b) = true ->
  isspace (byte_val b) = false
  /\ (byte_val b =? MINUS) = false /\ (byte_val b =? PLUS) = false
  /\ (byte_val b =? NUL) = false /\ (byte_val b =? NL) = false
  /\ 0 <= byte_val b - 48 <= 9.
Proof.
  unfold isdigit, isspace, MINUS, PLUS, NUL, NL. intros H.
  apply andb_true_iff in H as [H1 H2]. apply Z.leb_le in H1, H2.
  repeat split; try lia; apply Z.eqb_neq; lia.
Qed.

Lemma space_byte (b : byte) :
  isspace (byte_val b) = true ->
  (byte_val b =? MINUS) = false /\ (byte_val b =? NUL) = false.
Proof.
  unfold isspace, MINUS, NUL. intros H.
  split; apply Z.eqb_neq; intros E; rewrite E in H; discriminate H.
Qed.

Lemma all_digits_facts (ds : list byte) :
  all_digits ds = true ->
  no_newline ds = true /\ no_NUL ds = true /\ 0 <= decimal_value ds.
Proof.
  intros H. assert (G : forall acc, 0 <= acc ->
    no_newline ds = true /\ no_NUL ds = true
    /\ 0 <= fold_left (fun acc b => 10 * acc + (byte_val b - 48)) ds acc).
  { induction ds as [|d ds IH]; intros acc Hacc; [now repeat split|].
    unfold all_digits in H. simpl in H. apply andb_true_iff in H as [Hd Hds].
    destruct (digit_byte d Hd) as (_ & _ & _ & Hn & Hl & Hv).
    destruct (IH Hds (10 * acc + (byte_val d - 48))) as (I1 & I2 & I3); [lia|].
    unfold no_newline, no_NUL in *. simpl. rewrite Hn, Hl, I1, I2.
    now repeat split. }
  now apply G.
Qed.

Lemma all_spaces_no_NUL (ws : list byte) : all_spaces ws = true -> no_NUL ws = true.
Proof.
  induction ws as [|b ws IH]; intros H; [reflexivity|].
  unfold all_spaces in H. simpl in H. apply andb_true_iff in H as [Hb Hws].
  destruct (space_byte b Hb) as (_ & Hn).
  unfold no_NUL in *. simpl. now rewrite Hn, IH.
Qed.

Lemma no_NUL_app (l k : list byte) : no_NUL (l ++ k) = no_NUL l && no_NUL k.
Proof. unfold no_NUL. apply forallb_app. Qed.

Lemma scan_digits_all (ds : list byte) :
  forall (acc : Z) (n : nat),
    all_digits ds = true ->
    scan_digits (byte_val <$> ds) acc n
    = (fold_left (fun acc b => 10 * acc + (byte_val b - 48)) ds acc,
       (n + length ds)%nat).
Proof.
  induction ds as [|d ds IH]; intros acc n H; simpl.
  - now rewrite Nat.add_0_r.
  - unfold all_digits in H. simpl in H. apply andb_true_iff in H as [Hd Hds].
    rewrite Hd, IH by exact Hds. f_equal. lia.
Qed.

Lemma skip_spaces_all (ws : list byte) (t : list Z) :
  forall n : nat,
    all_spaces ws = true ->
    skip_spaces ((byte_val <$> ws) ++ t) n = skip_spaces t (n + length ws)%nat.
Proof.
  induction ws as [|b ws IH]; intros n H; simpl.
  - now rewrite Nat.add_0_r.
  - unfold all_spaces in H. simpl in H. apply andb_true_iff in H as [Hb Hws].
    rewrite Hb, IH by exact Hws. f_equal. lia.
Qed.

Lemma skip_spaces_stop (c : Z) (t : list Z) (n : nat) :
  isspace c = false -> skip_spaces (c :: t) n = (c :: t, n).
Proof. intros H. simpl. now rewrite H. Qed.

(** The subject sequence of a numeral is the whole of it. *)
Lemma subject_numeral (ws : list byte) (sg : sign) (ds : list byte) :
  all_spaces ws = true ->
  all_digits ds = true ->
  ds <> [] ->
  subject (byte_val <$> numeral ws sg ds)
  = Some (match sg with MinusSign => true | _ => false end,
          decimal_value ds, length (numeral ws sg ds)).
Proof.
  intros Hws Hds Hne. unfold subject, numeral.
  rewrite fmap_app, skip_spaces_all by exact Hws.
  rewrite fmap_app, !length_app.
  destruct ds as [|d ds]; [congruence|].
  assert (Hd : isdigit (byte_val d) = true).
  { unfold all_digits in Hds. simpl in Hds. now apply andb_true_iff in Hds as [Hd _]. }
  destruct (digit_byte d Hd) as (Hsp & Hm & Hp & _).
  pose proof (scan_digits_all (d :: ds) 0 0 Hds) as Hscan.
  rewrite fmap_cons in Hscan |- *. unfold decimal_value.
  destruct sg; simpl sign_bytes.
  - rewrite fmap_nil, app_nil_l, skip_spaces_stop by exact Hsp.
    cbv beta iota zeta. unfold scan_sign. rewrite Hm, Hp.
    cbv beta iota zeta. rewrite Hscan. cbv beta iota zeta.
    simpl length. simpl Nat.eqb. cbv iota. f_equal. f_equal. lia.
  - change (byte_val <$> ["+"%byte]) with [PLUS]. simpl app.
    rewrite skip_spaces_stop by reflexivity.
    cbv beta iota zeta. unfold scan_sign.
    change (PLUS =? MINUS) with false. change (PLUS =? PLUS) with true.
    cbv beta iota zeta. rewrite Hscan. cbv beta iota zeta.
    simpl length. simpl Nat.eqb. cbv iota. f_equal. f_equal. lia.
  - change (byte_val <$> ["-"%byte]) with [MINUS]. simpl app.
    rewrite skip_spaces_stop by reflexivity.
    cbv beta iota zeta. unfold scan_sign.
    change (MINUS =? MINUS) with true.
    cbv beta iota zeta. rewrite Hscan. cbv beta iota zeta.
    simpl length. simpl Nat.eqb. cbv iota. f_equal. f_equal. lia.
Qed.

Lemma numeral_is_text (ws : list byte) (sg : sign) (ds : list byte) :
  all_spaces ws = true ->
  no_newline ws = true ->
  all_digits ds = true ->
  no_newline (numeral ws sg ds) = true /\ no_NUL (numeral ws sg ds) = true.
Proof.
  intros Hws Hnl Hds. unfold numeral.
  destruct (all_digits_facts ds Hds) as (D1 & D2 & _).
  rewrite !no_newline_app, !no_NUL_app, Hnl, D1, D2, (all_spaces_no_NUL ws Hws).
  now destruct sg.
Qed.

Lemma numeral_length (ws : list byte) (sg : sign) (ds : list byte) :
  ds <> [] -> (0 < length (numeral ws sg ds))%nat.
Proof.
  intros H. unfold numeral. rewrite !length_app.
  destruct ds; [congruence | simpl; lia].
Qed.

Lemma deref_end (l : list Z) : deref l (length l) = NUL.
Proof. unfold deref. now apply nth_overflow. Qed.

Lemma to_int_id (v : Z) : INT_MIN <= v <= INT_MAX -> to_int v = v.
Proof.
  unfold to_int, INT_MIN, INT_MAX.
  change (2 ^ 31) with 2147483648. change (2 ^ 32) with 4294967296.
  intros H. rewrite Z.mod_small; lia.
Qed.

Lemma to_int_range (v : Z) : INT_MIN <= to_int v <= INT_MAX.
Proof.
  unfold to_int, INT_MIN, INT_MAX.
  change (2 ^ 31) with 2147483648. change (2 ^ 32) with 4294967296.
  pose proof (Z.mod_pos_bound (v + 2147483648) 4294967296). lia.
Qed.

Lemma strto_signed_numeral (bits : Z) (ws : list byte) (sg : sign) (ds : list byte) :
  all_spaces ws = true ->
  all_digits ds = true ->
  ds <> [] ->
  strto_signed bits (byte_val <$> numeral ws sg ds)
  = let v := signed_value sg (decimal_value ds) in
    let n := length (numeral ws sg ds) in
    if v >? 2 ^ (bits - 1) - 1 then (2 ^ (bits - 1) - 1, n, ERANGE)
    else if v <? - 2 ^ (bits - 1) then (- 2 ^ (bits - 1), n, ERANGE)
    else (v, n, 0).
Proof.
  intros Hws Hds Hne. unfold strto_signed.
  rewrite subject_numeral by assumption. now destruct sg.
Qed.

Lemma strto_unsigned_numeral (bits : Z) (ws : list byte) (sg : sign) (ds : list byte) :
  all_spaces ws = true ->
  all_digits ds = true ->
  ds <> [] ->
  strto_unsigned bits (byte_val <$> numeral ws sg ds)
  = let mag := decimal_value ds in
    let n := length (numeral ws sg ds) in
    if mag >? 2 ^ bits - 1 then (2 ^ bits - 1, n, ERANGE)
    else (match sg with MinusSign => (- mag) mod 2 ^ bits | _ => mag end, n, 0).
Proof.
  intros Hws Hds Hne. unfold strto_unsigned.
  rewrite subject_numeral by assumption. now destruct sg.
Qed.

Lemma deref_end_line (line : list byte) :
  (deref (byte_val <$> line) (length line) =? NUL) = true.
Proof.
  rewrite <- (length_fmap byte_val line), deref_end. reflexivity.
Qed.

(** X9.  [si_getInt] on a numeral: a line made of white space (none, or
    blanks, tabs and the like), an optional sign and at least one decimal
    digit, shorter than 127 bytes.  The line is accepted exactly when the
    number it denotes lies between [INT_MIN] and [INT_MAX], and that number
    is then returned; otherwise the line is rejected with "Invalid input"
    and the function reads on.  This holds for 32-bit and 64-bit [long]. *)
Theorem X9_si_getInt_numeral (dm : data_model) (ws : list byte) (sg : sign)
    (ds rest : list byte) (err : list string) (h : nat) :
  all_spaces ws = true ->
  no_newline ws = true ->
  all_digits ds = true ->
  ds <> [] ->
  (length (numeral ws sg ds) < 127)%nat ->
  si_getInt dm (mkWorld (numeral ws sg ds ++ newline :: rest) err h)
  = if (INT_MIN <=? signed_value sg (decimal_value ds))
       && (signed_value sg (decimal_value ds) <=? INT_MAX)
    then Some (signed_value sg (decimal_value ds), mkWorld rest err h)
    else si_getInt dm (mkWorld rest (err ++ [MSG_INVALID]) h).
Proof.
  intros Hws Hnl Hds Hne Hlen.
  destruct (numeral_is_text ws sg ds Hws Hnl Hds) as (T1 & T2).
  pose proof (numeral_length ws sg ds Hne) as Hpos.
  rewrite si_getInt_line by assumption.
  rewrite line_str_no_NUL by exact T2.
  unfold strtol. rewrite strto_signed_numeral by assumption.
  cbv zeta. set (v := signed_value sg (decimal_value ds)).
  set (n := length (numeral ws sg ds)) in *.
  assert (Hn : (n =? 0)%nat = false) by (apply Nat.eqb_neq; lia).
  pose proof (to_int_range v) as Hr.
  rewrite Z.gtb_ltb.
  unfold INT_MIN, INT_MAX in *.
  destruct dm; unfold long_bits;
    change (2 ^ (32 - 1)) with 2147483648; change (2 ^ (64 - 1)) with 9223372036854775808;
    change (2 ^ 31) with 2147483648 in *;
    repeat match goal with
           | |- context [?a <? ?b] => destruct (Z.ltb_spec a b)
           | |- context [?a <=? ?b] => destruct (Z.leb_spec a b)
           end;
    cbv beta iota zeta; simpl andb; cbv iota;
    try lia;
    subst n; rewrite ?deref_end_line, ?Hn; simpl orb; simpl negb; cbv iota;
    try reflexivity;
    try (rewrite to_int_id by (unfold INT_MIN, INT_MAX; change (2 ^ 31) with 2147483648; lia);
         now rewrite Z.eqb_refl);
    destruct (Z.eqb_spec v (to_int v)); try lia; reflexivity.
Qed.

Lemma X9_witness :
  si_getInt LP64 (mkWorld (numeral (bytes_of " ") MinusSign (bytes_of "42")
                           ++ newline :: bytes_of "x") [] 0)
  = if (INT_MIN <=? signed_value MinusSign (decimal_value (bytes_of "42")))
       && (signed_value MinusSign (decimal_value (bytes_of "42")) <=? INT_MAX)
    then Some (signed_value MinusSign (decimal_value (bytes_of "42")),
               mkWorld (bytes_of "x") [] 0)
    else si_getInt LP64 (mkWorld (bytes_of "x") ([] ++ [MSG_INVALID]) 0).
Proof.
  apply (X9_si_getInt_numeral LP64 (bytes_of " ") MinusSign (bytes_of "42")
           (bytes_of "x") [] 0);
    [reflexivity | reflexivity | reflexivity | discriminate | simpl; lia].
Defined.

(** One line through another numeric accessor: the conversion and the tests
    are named, every branch is decided by one iteration. *)
Ltac line_through get uniform_lemma body conv :=
  let Hnl := fresh "Hnl" in let Hlen := fresh "Hlen" in
  let Hconv := fresh "Hconv" in
  intros Hnl Hlen; unfold get;
  match goal with
  | |- context [line_str ?line] =>
      destruct (conv (line_str line)) as [[?value ?endptr] ?errno] eqn:Hconv;
      repeat match goal with
             | |- context [if ?c then _ else _] => destruct c eqn:?
             end;
      (erewrite (retry_loop_decides _ _ uniform_lemma); cycle 1;
       [ unfold body;
         rewrite readByte_line by (try exact Hnl; rewrite ?length_fresh; sizes);
         result_known;
         let E := fresh "E" in
         destruct (terminated line (fresh INPUT_BUFFER_SIZE)) as (?tail & E & _);
         [rewrite length_fresh; sizes|];
         rewrite E, c_str_terminated, ?load_terminated;
         fold (line_str line); rewrite Hconv; cbv beta iota zeta;
         repeat match goal with
                | H : ?c = true |- context [?c] => rewrite H
                | H : ?c = false |- context [?c] => rewrite H
                end;
         reflexivity
       | reflexivity ])
  end.

Lemma si_getUInt_line (dm : data_model) (line rest : list byte)
    (err : list string) (h : nat) :
  no_newline line = true ->
  (length line < 127)%nat ->
  si_getUInt dm (mkWorld (line ++ newline :: rest) err h)
  = let '(value, endptr, errno) := strtoul dm (line_str line) in
    if first_char line =? MINUS
    then si_getUInt dm (mkWorld rest (err ++ [MSG_NEGATIVE]) h)
    else if (endptr =? 0)%nat || negb (deref (line_str line) endptr =? NUL)
            || (errno =? ERANGE) || (value >? UINT_MAX)
    then si_getUInt dm (mkWorld rest (err ++ [MSG_INVALID]) h)
    else Some (to_uint value, mkWorld rest err h).
Proof. line_through si_getUInt (si_getUInt_body_uniform dm) si_getUInt_body (strtoul dm). Qed.

Lemma si_getLong_line (dm : data_model) (line rest : list byte)
    (err : list string) (h : nat) :
  no_newline line = true ->
  (length line < 127)%nat ->
  si_getLong dm (mkWorld (line ++ newline :: rest) err h)
  = let '(value, endptr, errno) := strtol dm (line_str line) in
    if (endptr =? 0)%nat || negb (deref (line_str line) endptr =? NUL)
       || (errno =? ERANGE)
    then si_getLong dm (mkWorld rest (err ++ [MSG_INVALID]) h)
    else Some (value, mkWorld rest err h).
Proof. line_through si_getLong (si_getLong_body_uniform dm) si_getLong_body (strtol dm). Qed.

Lemma si_getULong_line (dm : data_model) (line rest : list byte)
    (err : list string) (h : nat) :
  no_newline line = true ->
  (length line < 127)%nat ->
  si_getULong dm (mkWorld (line ++ newline :: rest) err h)
  = let '(value, endptr, errno) := strtoul dm (line_str line) in
    if (endptr =? 0)%nat || negb (deref (line_str line) endptr =? NUL)
       || (errno =? ERANGE)
    then si_getULong dm (mkWorld rest (err ++ [MSG_INVALID]) h)
    else Some (value, mkWorld rest err h).
Proof. line_through si_getULong (si_getULong_body_uniform dm) si_getULong_body (strtoul dm). Qed.

Lemma si_getLongLong_line (line rest : list byte) (err : list string) (h : nat) :
  no_newline line = true ->
  (length line < 127)%nat ->
  si_getLongLong (mkWorld (line ++ newline :: rest) err h)
  = let '(value, endptr, errno) := strtoll (line_str line) in
    if (endptr =? 0)%nat || negb (deref (line_str line) endptr =? NUL)
       || (errno =? ERANGE)
    then si_getLongLong (mkWorld rest (err ++ [MSG_INVALID]) h)
    else Some (value, mkWorld rest err h).
Proof. line_through si_getLongLong si_getLongLong_body_uniform si_getLongLong_body strtoll. Qed.

Lemma si_getULongLong_line (line rest : list byte) (err : list string) (h : nat) :
  no_newline line = true ->
  (length line < 127)%nat ->
  si_getULongLong (mkWorld (line ++ newline :: rest) err h)
  = let '(value, endptr, errno) := strtoull (line_str line) in
    if (endptr =? 0)%nat || negb (deref (line_str line) endptr =? NUL)
       || (errno =? ERANGE)
    then si_getULongLong (mkWorld rest (err ++ [MSG_INVALID]) h)
    else Some (value, mkWorld rest err h).
Proof.
  line_through si_getULongLong si_getULongLong_body_uniform si_getULongLong_body strtoull.
Qed.

(** The tests that follow a conversion which consumed the whole line. *)
Ltac whole_line_tests n Hn :=
  cbv beta iota zeta; simpl andb; cbv iota; try lia;
  subst n; rewrite ?deref_end_line, ?Hn; simpl orb; simpl negb; cbv iota;
  try reflexivity.

Ltac compare_all :=
  repeat match goal with
         | |- context [?a <? ?b] => destruct (Z.ltb_spec a b)
         | |- context [?a <=? ?b] => destruct (Z.leb_spec a b)
         end.

(** X10.  [si_getLong] and [si_getLongLong] on a numeral (white space, an
    optional sign, decimal digits; fewer than 127 bytes): the line is
    accepted exactly when the number it denotes is in the range of the
    type, [LONG_MIN..LONG_MAX] resp. [LLONG_MIN..LLONG_MAX], and that
    number is returned; otherwise the line is rejected with "Invalid input"
    and the function reads on. *)
Theorem X10_si_getLong_numeral (dm : data_model) (ws : list byte) (sg : sign)
    (ds rest : list byte) (err : list string) (h : nat) :
  all_spaces ws = true ->
  no_newline ws = true ->
  all_digits ds = true ->
  ds <> [] ->
  (length (numeral ws sg ds) < 127)%nat ->
  si_getLong dm (mkWorld (numeral ws sg ds ++ newline :: rest) err h)
  = (if (LONG_MIN dm <=? signed_value sg (decimal_value ds))
        && (signed_value sg (decimal_value ds) <=? LONG_MAX dm)
     then Some (signed_value sg (decimal_value ds), mkWorld rest err h)
     else si_getLong dm (mkWorld rest (err ++ [MSG_INVALID]) h))
  /\ si_getLongLong (mkWorld (numeral ws sg ds ++ newline :: rest) err h)
     = (if (LLONG_MIN <=? signed_value sg (decimal_value ds))
           && (signed_value sg (decimal_value ds) <=? LLONG_MAX)
        then Some (signed_value sg (decimal_value ds), mkWorld rest err h)
        else si_getLongLong (mkWorld rest (err ++ [MSG_INVALID]) h)).
Proof.
  intros Hws Hnl Hds Hne Hlen.
  destruct (numeral_is_text ws sg ds Hws Hnl Hds) as (T1 & T2).
  pose proof (numeral_length ws sg ds Hne) as Hpos.
  split.
  - rewrite si_getLong_line by assumption.
    rewrite line_str_no_NUL by exact T2.
    unfold strtol. rewrite strto_signed_numeral by assumption.
    cbv zeta. set (v := signed_value sg (decimal_value ds)).
    set (n := length (numeral ws sg ds)) in *.
    assert (Hn : (n =? 0)%nat = false) by (apply Nat.eqb_neq; lia).
    rewrite Z.gtb_ltb. unfold LONG_MIN, LONG_MAX.
    destruct dm; unfold long_bits;
      change (2 ^ (32 - 1)) with 2147483648;
      change (2 ^ (64 - 1)) with 9223372036854775808;
      compare_all; whole_line_tests n Hn.
  - rewrite si_getLongLong_line by assumption.
    rewrite line_str_no_NUL by exact T2.
    unfold strtoll. rewrite strto_signed_numeral by assumption.
    cbv zeta. set (v := signed_value sg (decimal_value ds)).
    set (n := length (numeral ws sg ds)) in *.
    assert (Hn : (n =? 0)%nat = false) by (apply Nat.eqb_neq; lia).
    rewrite Z.gtb_ltb. unfold LLONG_MIN, LLONG_MAX.
    change (2 ^ (64 - 1)) with 9223372036854775808.
    change (2 ^ 63) with 9223372036854775808.
    compare_all; whole_line_tests n Hn.
Qed.

Lemma X10_witness :
  si_getLongLong (mkWorld (numeral [] NoSign (bytes_of "9223372036854775808")
                           ++ newline :: bytes_of "1") [] 0)
  = si_getLongLong (mkWorld (bytes_of "1") [MSG_INVALID] 0).
Proof.
  destruct (X10_si_getLong_numeral LP64 [] NoSign (bytes_of "9223372036854775808")
              (bytes_of "1") [] 0) as (_ & H);
    [reflexivity | reflexivity | reflexivity | discriminate | simpl; lia |].
  exact H.
Defined.

Lemma first_char_numeral (ws : list byte) (sg : sign) (ds : list byte) :
  all_spaces ws = true ->
  all_digits ds = true ->
  ds <> [] ->
  sg <> MinusSign \/ ws <> [] ->
  (first_char (numeral ws sg ds) =? MINUS) = false.
Proof.
  intros Hws Hds Hne Hor. unfold numeral.
  destruct ws as [|b ws].
  - destruct Hor as [Hsg | Hw]; [|congruence].
    destruct sg; try congruence; [|reflexivity].
    destruct ds as [|d ds]; [congruence|]. simpl.
    unfold all_digits in Hds. simpl in Hds. apply andb_true_iff in Hds as [Hd _].
    now destruct (digit_byte d Hd) as (_ & Hm & _).
  - simpl. unfold all_spaces in Hws. simpl in Hws.
    apply andb_true_iff in Hws as [Hb _].
    now destruct (space_byte b Hb).
Qed.

(** X11.  [si_getUInt] on a numeral shorter than 127 bytes.  A numeral
    that begins with the minus sign is rejected with "Value can not be
    negative".  Any other numeral is accepted exactly when [strtoul] does
    not overflow [unsigned long] and its value is at most [UINT_MAX]; that
    value is the number the digits denote, or, for a minus sign that
    follows white space, the negation of that number in [unsigned long]:
    the test on [buffer[0]] does not see such a sign. *)
Theorem X11_si_getUInt_numeral (dm : data_model) (ws : list byte) (sg : sign)
    (ds rest : list byte) (err : list string) (h : nat) :
  all_spaces ws = true ->
  no_newline ws = true ->
  all_digits ds = true ->
  ds <> [] ->
  (length (numeral ws sg ds) < 127)%nat ->
  let mag := decimal_value ds in
  let value :=
    match sg with
    | MinusSign => (- mag) mod 2 ^ long_bits dm
    | _ => mag
    end in
  (ws = [] -> sg = MinusSign ->
   si_getUInt dm (mkWorld (numeral ws sg ds ++ newline :: rest) err h)
   = si_getUInt dm (mkWorld rest (err ++ [MSG_NEGATIVE]) h))
  /\ (sg <> MinusSign \/ ws <> [] ->
      si_getUInt dm (mkWorld (numeral ws sg ds ++ newline :: rest) err h)
      = if (mag <=? ULONG_MAX dm) && (value <=? UINT_MAX)
        then Some (value, mkWorld rest err h)
        else si_getUInt dm (mkWorld rest (err ++ [MSG_INVALID]) h)).
Proof.
  intros Hws Hnl Hds Hne Hlen mag value.
  destruct (numeral_is_text ws sg ds Hws Hnl Hds) as (T1 & T2).
  pose proof (numeral_length ws sg ds Hne) as Hpos.
  destruct (all_digits_facts ds Hds) as (_ & _ & Hmag). fold mag in Hmag.
  split.
  - intros -> ->. rewrite si_getUInt_line by assumption.
    destruct (strtoul dm _) as [[v e] er]. reflexivity.
  - intros Hor. rewrite si_getUInt_line by assumption.
    rewrite first_char_numeral by assumption.
    rewrite line_str_no_NUL by exact T2.
    unfold strtoul. rewrite strto_unsigned_numeral by assumption.
    cbv zeta. fold mag. fold value.
    set (n := length (numeral ws sg ds)) in *.
    assert (Hn : (n =? 0)%nat = false) by (apply Nat.eqb_neq; lia).
    assert (Hv : 0 <= value).
    { subst value. destruct sg; try exact Hmag.
      apply Z.mod_pos_bound. now destruct dm. }
    rewrite !Z.gtb_ltb. unfold ULONG_MAX, UINT_MAX, to_uint.
    change (2 ^ 32) with 4294967296 in *.
    compare_all; whole_line_tests n Hn;
      rewrite ?Z.gtb_ltb; compare_all; try lia; cbv iota; try reflexivity;
      rewrite Z.mod_small by lia; reflexivity.
Qed.

Lemma X11_witness :
  si_getUInt LP64
    (mkWorld (numeral (bytes_of " ") MinusSign (bytes_of "18446744073709551615")
              ++ newline :: bytes_of "x") [] 0)
  = Some (1, mkWorld (bytes_of "x") [] 0).
Proof.
  destruct (X11_si_getUInt_numeral LP64 (bytes_of " ") MinusSign
              (bytes_of "18446744073709551615") (bytes_of "x") [] 0) as (_ & H);
    [reflexivity | reflexivity | reflexivity | discriminate | simpl; lia |].
  apply H. right. discriminate.
Defined.

(** X12.  [si_getULong] and [si_getULongLong] on a numeral shorter than
    127 bytes: the line is accepted exactly when the number the digits
    denote is at most [ULONG_MAX] resp. [ULLONG_MAX].  What is returned is
    that number, or with a minus sign its negation in the unsigned type
    ([ULONG_MAX + 1] minus the number, 0 for 0): no negative numeral is
    rejected as such. *)
Theorem X12_si_getULong_numeral (dm : data_model) (ws : list byte) (sg : sign)
    (ds rest : list byte) (err : list string) (h : nat) :
  all_spaces ws = true ->
  no_newline ws = true ->
  all_digits ds = true ->
  ds <> [] ->
  (length (numeral ws sg ds) < 127)%nat ->
  let mag := decimal_value ds in
  si_getULong dm (mkWorld (numeral ws sg ds ++ newline :: rest) err h)
  = (if mag <=? ULONG_MAX dm
     then Some (match sg with
                | MinusSign => (- mag) mod (ULONG_MAX dm + 1)
                | _ => mag
                end, mkWorld rest err h)
     else si_getULong dm (mkWorld rest (err ++ [MSG_INVALID]) h))
  /\ si_getULongLong (mkWorld (numeral ws sg ds ++ newline :: rest) err h)
     = (if mag <=? ULLONG_MAX
        then Some (match sg with
                   | MinusSign => (- mag) mod (ULLONG_MAX + 1)
                   | _ => mag
                   end, mkWorld rest err h)
        else si_getULongLong (mkWorld rest (err ++ [MSG_INVALID]) h)).
Proof.
  intros Hws Hnl Hds Hne Hlen mag.
  destruct (numeral_is_text ws sg ds Hws Hnl Hds) as (T1 & T2).
  pose proof (numeral_length ws sg ds Hne) as Hpos.
  split.
  - rewrite si_getULong_line by assumption.
    rewrite line_str_no_NUL by exact T2.
    unfold strtoul. rewrite strto_unsigned_numeral by assumption.
    cbv zeta. fold mag.
    set (n := length (numeral ws sg ds)) in *.
    assert (Hn : (n =? 0)%nat = false) by (apply Nat.eqb_neq; lia).
    rewrite Z.gtb_ltb. unfold ULONG_MAX.
    replace (2 ^ long_bits dm - 1 + 1) with (2 ^ long_bits dm) by lia.
    compare_all; whole_line_tests n Hn.
  - rewrite si_getULongLong_line by assumption.
    rewrite line_str_no_NUL by exact T2.
    unfold strtoull. rewrite strto_unsigned_numeral by assumption.
    cbv zeta. fold mag.
    set (n := length (numeral ws sg ds)) in *.
    assert (Hn : (n =? 0)%nat = false) by (apply Nat.eqb_neq; lia).
    rewrite Z.gtb_ltb. unfold ULLONG_MAX.
    replace (2 ^ 64 - 1 + 1) with (2 ^ 64) by lia.
    compare_all; whole_line_tests n Hn.
Qed.

Lemma X12_witness :
  si_getULongLong (mkWorld (numeral [] MinusSign (bytes_of "1")
                            ++ newline :: bytes_of "x") [] 0)
  = Some (ULLONG_MAX, mkWorld (bytes_of "x") [] 0).
Proof.
  destruct (X12_si_getULong_numeral LP64 [] MinusSign (bytes_of "1")
              (bytes_of "x") [] 0) as (_ & H);
    [reflexivity | reflexivity | reflexivity | discriminate | simpl; lia |].
  exact H.
Defined.

(** ** The values the accessors return *)

(** The value of a [return], for a body that has been taken apart. *)
Ltac value_of_return body :=
  let E := fresh "E" in
  intros [?b ?w] [?b' ?w'] ?r _ E; unfold body in E;
  match type of E with
  | context [si_readByte ?b ?size ?w] =>
      destruct (si_readByte b size w) as [[[?r0 ?b1] ?o] ?w1]
  end;
  crack E; injection E as <- _ _.

Lemma si_getFloat_result (float : Type) (NANf : float)
    (strtof : list Z -> float * nat * Z) (isfinitef : float -> bool) :
  results_satisfy (si_getFloat float NANf strtof isfinitef)
    (fun _ r _ => r = NANf \/ isfinitef r = true).
Proof.
  intros w w' r E.
  apply (retry_loop_invariant INPUT_BUFFER_SIZE
           (si_getFloat_body float NANf strtof isfinitef)
           (fun _ r _ => r = NANf \/ isfinitef r = true) (fun _ _ => True)
           (si_getFloat_body_uniform float NANf strtof isfinitef)) with w w'; auto.
  value_of_return si_getFloat_body; [now left|].
  right.
  match goal with
  | H : _ || negb (isfinitef ?v) = false |- _ =>
      apply orb_false_elim in H as [_ H]; now apply negb_false_iff in H
  end.
Qed.

(** X14.  [si_getFloat] (and [si_getDouble], the same code) returns on
    every input, and never a value that [isfinite] refuses, except the
    failure value [NAN] itself: whatever [strtof] makes of a line, an
    infinity or a not-a-number read from the input is rejected. *)
Theorem X14_si_getFloat_finite_or_NAN (float : Type) (NANf : float)
    (strtof : list Z -> float * nat * Z) (isfinitef : float -> bool) :
  ensures (si_getFloat float NANf strtof isfinitef)
    (fun _ r _ => r = NANf \/ isfinitef r = true)
  /\ ensures (si_getDouble float NANf strtof isfinitef)
       (fun _ r _ => r = NANf \/ isfinitef r = true).
Proof.
  split; (apply ensures_intro; [apply si_getFloat_total | apply si_getFloat_result]).
Qed.

(** ** The character accessors *)

Lemma first_char_range (stored : list byte) : 0 <= first_char stored < 256.
Proof. destruct stored as [|b stored]; simpl; [unfold NUL; lia | apply byte_val_range]. Qed.

(** A [return] of a character accessor, with what the read has found. *)
Ltac char_return body :=
  let E := fresh "E" in let Hs := fresh "Hs" in
  intros [?b ?w] [?b' ?w'] ?r Hs E; unfold sized in Hs; simpl in Hs |- *;
  match goal with
  | w0 : World |- _ =>
      match type of E with
      | body _ (_, w0) = _ => idtac
      | body (_, w0) = _ => idtac
      end;
      destruct (readByte_cases (CHAR_INPUT_BUFFER_SIZE - 1) w0)
        as (?r0 & ?stored & ?w1 & ?Hread & ?Hlen & ?Hcase); [sizes|]
  end;
  unfold body in E;
  match goal with
  | Hread : forall buf, _ -> si_readByte buf _ _ = _ |- _ =>
      rewrite Hread in E by sizes
  end;
  match goal with
  | stored : list byte, b : list memval |- _ =>
      match type of E with
      | context [drop (length stored) b] =>
          destruct (terminated stored b) as (?t & ?Et & _); [sizes|]
      end
  end;
  cbv beta iota zeta in E;
  match goal with
  | Et : <[_ := _]> _ = _ |- _ => rewrite Et, ?load_terminated in E
  end.

(** X15.  [si_getChar] returns on every input, either [EOF] or the value
    of a byte, between 0 and 255, and it returns [EOF] only when it has
    found the end of the stream: the input is then exhausted. *)
Theorem X15_si_getChar_result :
  ensures si_getChar
    (fun _ c w' => (c = EOF /\ stdin w' = []) \/ 0 <= c <= 255).
Proof.
  apply ensures_intro; [apply si_getChar_total|]. intros w w' c E.
  apply (retry_loop_invariant CHAR_INPUT_BUFFER_SIZE si_getChar_body
           (fun _ c w' => (c = EOF /\ stdin w' = []) \/ 0 <= c <= 255)
           (fun _ _ => True) si_getChar_body_uniform) with w; auto.
  clear. char_return si_getChar_body.
  destruct Hcase as [(-> & Hs0 & ->) | ([-> | ->] & _)]; revert E; result_known.
  - intros [= <- _ <-]. left. now split.
  - destruct (length stored =? 0)%nat; [intros [= <- _ _]; right; unfold NL; lia|].
    destruct (length stored =? 1)%nat; [|discriminate].
    intros [= <- _ _]. right. unfold to_char.
    pose proof (Z.mod_pos_bound (first_char stored) 256). lia.
  - discriminate.
Qed.

(** X16.  [si_getCharFiltered], with a non-empty allow-set, returns on
    every input (it does not exit), and only ever [EOF], the NUL character
    or a character of the allow-set: [strchr] finds the terminator of
    [allowed], so a line made of one NUL byte passes every filter. *)
Theorem X16_si_getCharFiltered_membership (a : Z) (allowed : list Z) :
  ensures (si_getCharFiltered (Some (a :: allowed)))
    (fun _ r _ => exists c : Z,
         r = Returns c /\ (c = EOF \/ c = NUL \/ In c (a :: allowed))).
Proof.
  apply ensures_intro; [apply si_getCharFiltered_total|]. intros w w' r.
  unfold si_getCharFiltered.
  destruct (retry_loop _ _ w) as [[c1 w1]|] eqn:E; [|discriminate].
  intros [= <- <-]. exists c1. split; [reflexivity|].
  apply (retry_loop_invariant CHAR_INPUT_BUFFER_SIZE
           (si_getCharFiltered_body (a :: allowed))
           (fun _ c _ => c = EOF \/ c = NUL \/ In c (a :: allowed))
           (fun _ _ => True) (si_getCharFiltered_body_uniform (a :: allowed)))
    with w w1; auto.
  clear. char_return si_getCharFiltered_body.
  destruct Hcase as [(-> & _ & _) | ([-> | ->] & _)]; revert E; result_known.
  - intros [= <- _ _]. now left.
  - destruct (negb (length stored =? 1)%nat); [discriminate|].
    destruct (strchr (a :: allowed) (first_char stored)) eqn:Hin; [|discriminate].
    intros [= <- _ _]. right.
    unfold to_char. rewrite Z.mod_small by apply first_char_range.
    unfold strchr in Hin. apply orb_true_iff in Hin as [Hz | Hex].
    + left. now apply Z.eqb_eq in Hz.
    + right. apply existsb_exists in Hex as (x & Hx & Heq).
      apply Z.eqb_eq in Heq. now subst x.
  - discriminate.
Qed.

(** X17.  [si_getCharFiltered] with a non-empty allow-set, line by line.
    A line of one byte is accepted when [strchr] finds the byte in
    [allowed], and its value is returned; when not, the diagnostic lists
    the allow-set and the function reads on.  The empty line and a line of
    two bytes get "Please enter a single character" and the function reads
    on: unlike [si_getChar], it never returns the newline of an empty
    line. *)
Theorem X17_si_getCharFiltered_lines (a : Z) (allowed : list Z) (b : byte)
    (line rest : list byte) (err : list string) (h : nat) :
  b <> newline ->
  no_newline line = true ->
  (length line < 3)%nat ->
  length line <> 1%nat ->
  si_getCharFiltered (Some (a :: allowed)) (mkWorld (b :: newline :: rest) err h)
  = (if strchr (a :: allowed) (byte_val b)
     then Some (Returns (byte_val b), mkWorld rest err h)
     else si_getCharFiltered (Some (a :: allowed))
            (mkWorld rest (err ++ [MSG_ALLOWED (a :: allowed)]) h))
  /\ si_getCharFiltered (Some (a :: allowed)) (mkWorld (line ++ newline :: rest) err h)
     = si_getCharFiltered (Some (a :: allowed))
         (mkWorld rest (err ++ [MSG_SINGLE_CHAR]) h).
Proof.
  intros Hb Hnl Hlen Hne. unfold si_getCharFiltered. split.
  - assert (Hnb : no_newline [b] = true).
    { unfold no_newline. simpl. destruct (byte_val b =? NL) eqn:E; [|reflexivity].
      now apply newline_unique in E. }
    destruct (strchr (a :: allowed) (byte_val b)) eqn:Hin;
      (erewrite (retry_loop_decides _ _ (si_getCharFiltered_body_uniform (a :: allowed)));
       cycle 1;
       [ unfold si_getCharFiltered_body;
         change (b :: newline :: rest) with ([b] ++ newline :: rest);
         rewrite readByte_line by (try exact Hnb; rewrite ?length_fresh; sizes);
         simpl; rewrite Hin, ?to_char_byte_val; reflexivity
       | reflexivity ]).
  - erewrite (retry_loop_decides _ _ (si_getCharFiltered_body_uniform (a :: allowed)));
      cycle 1.
    { unfold si_getCharFiltered_body.
      rewrite readByte_line by (try exact Hnl; rewrite ?length_fresh; sizes).
      destruct line as [|x [|y [|z line]]]; simpl in Hlen, Hne; try lia;
        reflexivity. }
    reflexivity.
Qed.

Lemma X17_witness :
  si_getCharFiltered (Some [97; 98; 99])
    (mkWorld ("d"%byte :: newline :: bytes_of "a") [] 0)
  = si_getCharFiltered (Some [97; 98; 99])
      (mkWorld (bytes_of "a") [MSG_ALLOWED [97; 98; 99]] 0).
Proof.
  destruct (X17_si_getCharFiltered_lines 97 [98; 99] "d"%byte [] (bytes_of "a") [] 0)
    as (H & _); [discriminate | reflexivity | simpl; lia | simpl; lia |].
  exact H.
Defined.

(** ** si_getBool over several lines *)

(** One line through [si_getBool]. *)
Lemma si_getBool_line (line rest : list byte) (err : list string) (h : nat) :
  no_newline line = true ->
  si_getBool (mkWorld (line ++ newline :: rest) err h)
  = match bool_answer line with
    | Some v => Some (v, mkWorld rest err h)
    | None => si_getBool (mkWorld rest (err ++ [bool_diagnostic line]) h)
    end.
Proof.
  intros Hnl. destruct line as [|b [|b' line]].
  - simpl. rewrite (si_getBool_decides _ (mkWorld rest (err ++ [MSG_Y_OR_N]) h) Continue);
      [reflexivity|].
    unfold si_getBool_body. now rewrite si_getChar_empty_line.
  - assert (Hb : b <> newline).
    { intros ->. discriminate Hnl. }
    simpl app. rewrite si_getBool_one_byte by exact Hb. unfold bool_answer.
    destruct ((byte_val b =? 89) || (byte_val b =? 121)); [reflexivity|].
    now destruct ((byte_val b =? 78) || (byte_val b =? 110)).
  - change (bool_answer (b :: b' :: line)) with (@None bool). cbv iota.
    apply si_getBool_through_getChar.
    rewrite si_getChar_long_line by (try exact Hnl; simpl; lia).
    unfold bool_diagnostic. now destruct line.
Qed.

(** X18.  [si_getBool] goes through the lines of the input until one is
    exactly "y", "Y", "n" or "N", and returns the answer of that line; each
    line before it costs one diagnostic, in order: "Enter 'y' or 'n'" for
    an empty line or one other byte, "Please enter a single character" for
    two bytes, the overrun message for three bytes or more.  Nothing after
    the answering line is read.  When the lines run out without an answer,
    the result is [false], after the same diagnostics and the one for the
    end of the stream. *)
Theorem X18_si_getBool_first_answer (skipped : list (list byte))
    (answer rest : list byte) (v : bool) (err : list string) (h : nat) :
  forallb unanswered skipped = true ->
  no_newline answer = true ->
  bool_answer answer = Some v ->
  si_getBool (mkWorld (lines_bytes skipped ++ answer ++ newline :: rest) err h)
  = Some (v, mkWorld rest (err ++ map bool_diagnostic skipped) h)
  /\ si_getBool (mkWorld (lines_bytes skipped) err h)
     = Some (false,
             mkWorld [] (err ++ map bool_diagnostic skipped ++ [MSG_EOF_FALSE]) h).
Proof.
  intros Hsk Hnl Hans. revert err.
  induction skipped as [|l ls IH]; intros err.
  - simpl. rewrite app_nil_r. split.
    + rewrite si_getBool_line by exact Hnl. now rewrite Hans.
    + rewrite (si_getBool_decides _ (mkWorld [] (err ++ [MSG_EOF_FALSE]) h)
                 (Return false)); [reflexivity|].
      unfold si_getBool_body. now rewrite si_getChar_eof.
  - simpl in Hsk. apply andb_true_iff in Hsk as [Hl Hls].
    unfold unanswered in Hl. apply andb_true_iff in Hl as [Hlnl Hlans].
    destruct (bool_answer l) as [x|] eqn:El; [discriminate|].
    destruct (IH Hls (err ++ [bool_diagnostic l])) as (I1 & I2).
    unfold lines_bytes in *. simpl concat. simpl map.
    rewrite <- !app_assoc. simpl app.
    rewrite !si_getBool_line by exact Hlnl. rewrite El.
    rewrite <- !app_assoc in I1, I2. simpl app in I1, I2.
    split; [exact I1 | exact I2].
Qed.

Lemma X18_witness :
  si_getBool
    (mkWorld (lines_bytes [bytes_of "maybe"; []; bytes_of "no"] ++ bytes_of "n"
              ++ newline :: bytes_of "y") [] 0)
  = Some (false, mkWorld (bytes_of "y") [MSG_OVERRUN; MSG_Y_OR_N; MSG_SINGLE_CHAR] 0).
Proof.
  destruct (X18_si_getBool_first_answer [bytes_of "maybe"; []; bytes_of "no"]
              (bytes_of "n") (bytes_of "y") false [] 0) as (H & _);
    [reflexivity | reflexivity | reflexivity |].
  exact H.
Defined.

(** ** A NUL byte in a line *)

Lemma line_str_stops_at_NUL (pre post : list byte) :
  line_str (pre ++ x00 :: post) = line_str pre.
Proof.
  unfold line_str. rewrite chars_app, <- app_assoc.
  change (chars (x00 :: post)) with (Char NUL :: chars post).
  simpl app. apply c_str_terminated.
Qed.

Lemma first_char_stops_at_NUL (pre post : list byte) :
  first_char (pre ++ x00 :: post) = first_char pre.
Proof. now destruct pre. Qed.

(** X19.  The integer accessors convert the C string in the buffer: in a
    line shorter than 127 bytes that holds a NUL byte, that byte and all
    that follows it in the line are ignored, and the line is treated as
    the bytes before the NUL alone would be (the line "123", a NUL and any
    garbage is the number 123). *)
Theorem X19_bytes_after_NUL_are_ignored (dm : data_model)
    (pre post rest : list byte) (err : list string) (h : nat) :
  no_newline (pre ++ x00 :: post) = true ->
  (length (pre ++ x00 :: post) < 127)%nat ->
  let cut := mkWorld ((pre ++ x00 :: post) ++ newline :: rest) err h in
  let whole := mkWorld (pre ++ newline :: rest) err h in
  si_getInt dm cut = si_getInt dm whole
  /\ si_getUInt dm cut = si_getUInt dm whole
  /\ si_getLong dm cut = si_getLong dm whole
  /\ si_getULong dm cut = si_getULong dm whole
  /\ si_getLongLong cut = si_getLongLong whole
  /\ si_getULongLong cut = si_getULongLong whole.
Proof.
  intros Hnl Hlen cut whole. subst cut whole.
  assert (Hpre : no_newline pre = true).
  { rewrite no_newline_app in Hnl. now apply andb_true_iff in Hnl as [H _]. }
  assert (Hlpre : (length pre < 127)%nat).
  { rewrite length_app in Hlen. lia. }
  repeat split.
  - rewrite !si_getInt_line by assumption. now rewrite line_str_stops_at_NUL.
  - rewrite !si_getUInt_line by assumption.
    now rewrite line_str_stops_at_NUL, first_char_stops_at_NUL.
  - rewrite !si_getLong_line by assumption. now rewrite line_str_stops_at_NUL.
  - rewrite !si_getULong_line by assumption. now rewrite line_str_stops_at_NUL.
  - rewrite !si_getLongLong_line by assumption. now rewrite line_str_stops_at_NUL.
  - rewrite !si_getULongLong_line by assumption. now rewrite line_str_stops_at_NUL.
Qed.

Lemma X19_witness :
  si_getInt LP64
    (mkWorld ((bytes_of "123" ++ x00 :: bytes_of "abc") ++ newline :: bytes_of "x") [] 0)
  = si_getInt LP64 (mkWorld (bytes_of "123" ++ newline :: bytes_of "x") [] 0).
Proof.
  destruct (X19_bytes_after_NUL_are_ignored LP64 (bytes_of "123") (bytes_of "abc")
              (bytes_of "x") [] 0) as (H & _);
    [reflexivity | simpl; lia |].
  exact H.
Defined.

(** ** A long line and the numeric accessors *)

(** A body that tests [if ( si_readByte( ... )) return sentinel;], on an
    input whose first line does not fit. *)
Ltac gives_up get uniform_lemma body sentinel :=
  let w := fresh "w" in let Hlen := fresh "Hlen" in
  intros w Hlen; unfold get;
  rewrite (retry_loop_decides _ _ uniform_lemma w
             (mkWorld (drain (stdin w)) (stderr w ++ [MSG_OVERRUN]) (heap_free w))
             (Return sentinel));
  [reflexivity|];
  unfold body;
  rewrite readByte_line_reader by (unfold fresh; rewrite ?length_replicate; sizes);
  unfold line_reader;
  replace (INPUT_BUFFER_SIZE - 1 <=? length (first_line (stdin w)))%nat with true
    by (symmetry; apply Nat.leb_le; sizes);
  reflexivity.

(** X20.  The integer and floating-point accessors do not retry a line
    that is too long.  When the first line of the input has 127 bytes or
    more, whether a newline ends it or the end of the stream, each of them
    returns its failure value at once, the value it also returns at the
    end of the stream: the line is skipped, the line reader's diagnostic is
    written, nothing after the line is read. *)
Theorem X20_numeric_accessors_give_up_on_long_line (dm : data_model)
    (float : Type) (NANf : float) (strtof : list Z -> float * nat * Z)
    (isfinitef : float -> bool) :
  gives_up_on_long_line (si_getInt dm) 127 INT_MIN
  /\ gives_up_on_long_line (si_getUInt dm) 127 UINT_MAX
  /\ gives_up_on_long_line (si_getFloat float NANf strtof isfinitef) 127 NANf
  /\ gives_up_on_long_line (si_getDouble float NANf strtof isfinitef) 127 NANf
  /\ gives_up_on_long_line (si_getLong dm) 127 (LONG_MIN dm)
  /\ gives_up_on_long_line (si_getULong dm) 127 (ULONG_MAX dm)
  /\ gives_up_on_long_line si_getLongLong 127 LLONG_MIN
  /\ gives_up_on_long_line si_getULongLong 127 ULLONG_MAX.
Proof.
  split; [|split; [|split; [|split; [|split; [|split; [|split]]]]]].
  - gives_up si_getInt (si_getInt_body_uniform dm) si_getInt_body INT_MIN.
  - gives_up si_getUInt (si_getUInt_body_uniform dm) si_getUInt_body UINT_MAX.
  - gives_up si_getFloat (si_getFloat_body_uniform float NANf strtof isfinitef)
      si_getFloat_body NANf.
  - unfold si_getDouble.
    gives_up si_getFloat (si_getFloat_body_uniform float NANf strtof isfinitef)
      si_getFloat_body NANf.
  - gives_up si_getLong (si_getLong_body_uniform dm) si_getLong_body (LONG_MIN dm).
  - gives_up si_getULong (si_getULong_body_uniform dm) si_getULong_body (ULONG_MAX dm).
  - gives_up si_getLongLong si_getLongLong_body_uniform si_getLongLong_body LLONG_MIN.
  - gives_up si_getULongLong si_getULongLong_body_uniform si_getULongLong_body
      ULLONG_MAX.
Qed.

Lemma X20_witness :
  si_getInt LP64 (mkWorld (replicate 127 "1"%byte ++ newline :: bytes_of "5") [] 0)
  = Some (INT_MIN, mkWorld (bytes_of "5") [MSG_OVERRUN] 0).
Proof.
  destruct (X20_numeric_accessors_give_up_on_long_line LP64 unit tt
              (fun _ => (tt, 0%nat, 0)) (fun _ => true)) as (Hint & _).
  apply (Hint (mkWorld (replicate 127 "1"%byte ++ newline :: bytes_of "5") [] 0)).
  apply Nat.leb_le. vm_compute. reflexivity.
Defined.

End SafeInput.
